(** * InformationRecovery: the Reddit indexing and TF-IDF script

    A shallow embedding of [HW2/reddit_crawler_and_calculates.py]:
    [clean_text], [build_inverse_index_with_locations] and
    [calculate_tfidf], with the library calls they make ([re.sub],
    [str.lower], [str.split], [str.join], [collections.Counter],
    [sorted], [set], [TfidfVectorizer]) given their Python semantics.

    A Python [str] is a sequence of Unicode code points.  The character
    classes of [re] and the case mapping of [str.lower] come from the
    interpreter's Unicode database, which is a record here: every
    general theorem holds for any database that agrees with Python on
    ASCII and whose lower-case mapping is stable ([PythonUnicode]);
    concrete runs use the excerpt [latin] of the database. *)

From Stdlib Require Import String Ascii NArith DecimalString.
From stdpp Require Import gmap list sorting.

Local Open Scope N_scope.
Local Open Scope list_scope.

(** ** Strings *)

(** A Python [str] is the list of its code points, [list N].  A literal
    of the source, as the code points of its characters: *)
Definition py (s : string) : list N := N_of_ascii <$> list_ascii_of_string s.

(** The tables of the interpreter's Unicode database that the script
    consults through [re] and [str]. *)
Record UnicodeData : Type := {
  isalnum : N → bool;            (* str.isalnum, one character *)
  isspace : N → bool;            (* str.isspace, one character *)
  tolower_full : N → list N;     (* full lower-case mapping of one character *)
  iscased : N → bool;            (* property Cased *)
  iscase_ignorable : N → bool    (* property Case_Ignorable *)
}.

(** The ASCII rows of those tables. *)
Definition ascii_isspace (c : N) : bool :=
  ((9 <=? c) && (c <=? 13)) || ((28 <=? c) && (c <=? 31)) || (c =? 32).

Definition ascii_isupper (c : N) : bool := (65 <=? c) && (c <=? 90).

Definition ascii_islower (c : N) : bool := (97 <=? c) && (c <=? 122).

Definition ascii_isdigit (c : N) : bool := (48 <=? c) && (c <=? 57).

Definition ascii_isalnum (c : N) : bool :=
  ascii_isdigit c || ascii_isupper c || ascii_islower c.

Definition ascii_tolower (c : N) : N := if ascii_isupper c then c + 32 else c.

(** GREEK CAPITAL LETTER SIGMA and its two lower-case forms. *)
Definition SIGMA : N := 0x3A3.
Definition final_sigma : N := 0x3C2.
Definition small_sigma : N := 0x3C3.

(** What every version of Python's database satisfies and the proofs
    below rely on. *)
Class PythonUnicode (U : UnicodeData) : Prop := {
  uni_ascii_space : ∀ c, c < 128 → isspace U c = ascii_isspace c;
  uni_ascii_alnum : ∀ c, c < 128 → isalnum U c = ascii_isalnum c;
  uni_ascii_lower : ∀ c, c < 128 → tolower_full U c = [ascii_tolower c];
  uni_lower_fixed : ∀ c d, d ∈ tolower_full U c → tolower_full U d = [d] ∧ d ≠ SIGMA;
  uni_sigma_fixed : tolower_full U small_sigma = [small_sigma] ∧
                    tolower_full U final_sigma = [final_sigma]
}.

(** [" ".join(words)] and the like. *)
Fixpoint str_join (sep : list N) (words : list (list N)) : list N :=
  match words with
  | [] => []
  | [w] => w
  | w :: ws => w ++ sep ++ str_join sep ws
  end.

(** The maximal runs of characters satisfying [keep], left to right: a
    run is closed by the first character outside [keep] or by the end
    of the string; [word] is the run being read. *)
Definition flush (word : list N) : list (list N) :=
  match word with [] => [] | _ => [word] end.

Fixpoint runs_from (keep : N → bool) (word : list N) (s : list N) : list (list N) :=
  match s with
  | [] => flush word
  | c :: s' =>
      if keep c then runs_from keep (word ++ [c]) s'
      else flush word ++ runs_from keep [] s'
  end.

Definition runs (keep : N → bool) (s : list N) : list (list N) := runs_from keep [] s.

Section Strings.
Context (U : UnicodeData).

(** [\w] of a [str] pattern: alphanumeric or underscore. *)
Definition re_word (c : N) : bool := isalnum U c || (c =? 95).

(** [\s] of a [str] pattern. *)
Definition re_space (c : N) : bool := isspace U c.

(** [re.sub] with the pattern [[^\w\s]] and the empty replacement:
    every character outside [\w] and [\s] is removed. *)
Definition re_sub_nonword_nonspace (s : list N) : list N :=
  filter (λ c, re_word c || re_space c) s.

(** The first character of [s] that is not case-ignorable. *)
Fixpoint skip_case_ignorable (s : list N) : option N :=
  match s with
  | [] => None
  | c :: s' => if iscase_ignorable U c then skip_case_ignorable s' else Some c
  end.

(** Whether a capital sigma stands in final position: a cased
    character before it (case-ignorable ones skipped), none after it.
    [before] is the text to its left, nearest character first. *)
Definition in_final_sigma_context (before after : list N) : bool :=
  match skip_case_ignorable before with
  | Some c =>
      iscased U c &&
      match skip_case_ignorable after with
      | Some c' => negb (iscased U c')
      | None => true
      end
  | None => false
  end.

(** [str.lower]: each character is replaced by its full lower-case
    mapping, the capital sigma by the form its context asks for. *)
Fixpoint lower_from (before : list N) (s : list N) : list N :=
  match s with
  | [] => []
  | c :: s' =>
      (if decide (c = SIGMA)
       then [if in_final_sigma_context before s' then final_sigma else small_sigma]
       else tolower_full U c) ++ lower_from (c :: before) s'
  end.

Definition str_lower (s : list N) : list N := lower_from [] s.

(** [str.split()] without arguments: the maximal runs of
    non-whitespace characters. *)
Definition str_split (s : list N) : list (list N) :=
  runs (λ c, negb (isspace U c)) s.

(** [re.findall(r"(?u)\b\w\w+\b", s)]: the maximal runs of word
    characters that are at least two characters long. *)
Definition findall_words2 (s : list N) : list (list N) :=
  filter (λ w, (2 ≤ length w)%nat) (runs re_word s).
End Strings.

(** ** The normalizer *)

Definition STOPWORDS : gset (list N) :=
  list_to_set (py <$> [
    "and"; "or"; "the"; "is"; "in"; "to"; "a"; "of"; "on"; "for"; "with"; "it"; "as"; "at"; "this"; "that";
    "an"; "be"; "are"; "by"; "was"; "were"; "from"; "has"; "have"; "had"; "but"; "not"; "you"; "we"; "they"; "he"; "she"; "i"; "me"; "my"
  ]%string).

Section Normalizer.
Context (U : UnicodeData).

Definition clean_text (text : list N) : list N :=
  (* Remove emojis and special characters *)
  let text := re_sub_nonword_nonspace U text in
  (* Convert to lowercase *)
  let text := str_lower U text in
  (* Remove stopwords *)
  let words := str_split U text in
  let filtered_words := filter (λ word, word ∉ STOPWORDS) words in
  str_join (py " ") filtered_words.

(** The token sequence every caller takes from the cleaned text:
    [clean_text(...).split()]. *)
Definition normalize (text : list N) : list (list N) := str_split U (clean_text text).

(** [filtered_words], the list that [clean_text] joins. *)
Definition words_of (text : list N) : list (list N) :=
  filter (λ word, word ∉ STOPWORDS)
         (str_split U (str_lower U (re_sub_nonword_nonspace U text))).

(** The characters [re.sub] leaves in place. *)
Definition stripped_to (c : N) : Prop := re_word U c || re_space U c.

(** Lower-casing brings back no character that [re.sub] strips. *)
Definition lowercases_cleanly (text : list N) : Prop :=
  Forall stripped_to (str_lower U (re_sub_nonword_nonspace U text)).

(** A character that [str.lower] leaves alone. *)
Definition lower_fixed (d : N) : Prop := tolower_full U d = [d] ∧ d ≠ SIGMA.
End Normalizer.

(** A token is a run of [keep] when it is non-empty and kept. *)
Definition is_run (keep : N → bool) (t : list N) : Prop :=
  t ≠ [] ∧ Forall (λ c, keep c = true) t.

(** ** An excerpt of the Unicode database

    Basic Latin and Latin-1 Supplement (U+0000..U+00FF), LATIN CAPITAL
    LETTER I WITH DOT ABOVE (U+0130), COMBINING DOT ABOVE (U+0307) and
    the Greek sigmas, with the values Python gives them.  Every other
    code point has the properties of a symbol such as an emoji: not
    alphanumeric, not white space, uncased, its own lower case. *)

Definition between (lo hi c : N) : bool := (lo <=? c) && (c <=? hi).

Definition latin_isalnum (c : N) : bool :=
  if c <? 128 then ascii_isalnum c
  else (c =? 0xAA) || between 0xB2 0xB3 c || (c =? 0xB5) || between 0xB9 0xBA c ||
       between 0xBC 0xBE c || between 0xC0 0xD6 c || between 0xD8 0xF6 c ||
       between 0xF8 0xFF c || (c =? 0x130) || (c =? SIGMA) || (c =? final_sigma) ||
       (c =? small_sigma).

Definition latin_isspace (c : N) : bool :=
  if c <? 128 then ascii_isspace c else (c =? 0x85) || (c =? 0xA0).

Definition latin_tolower_full (c : N) : list N :=
  if c <? 128 then [ascii_tolower c]
  else if between 0xC0 0xD6 c || between 0xD8 0xDE c then [c + 32]
  else if c =? 0x130 then [0x69; 0x307]
  else if c =? SIGMA then [small_sigma]
  else [c].

Definition latin_iscase_ignorable (c : N) : bool :=
  (c =? 0x27) || (c =? 0x2E) || (c =? 0x3A) || (c =? 0x5E) || (c =? 0x60) ||
  (c =? 0xA8) || (c =? 0xAD) || (c =? 0xAF) || (c =? 0xB4) || between 0xB7 0xB8 c ||
  (c =? 0x307).

Definition latin_iscased (c : N) : bool :=
  ascii_isupper c || ascii_islower c || (c =? 0xAA) || (c =? 0xB5) || (c =? 0xBA) ||
  between 0xC0 0xD6 c || between 0xD8 0xF6 c || between 0xF8 0xFF c ||
  (c =? 0x130) || (c =? SIGMA) || (c =? final_sigma) || (c =? small_sigma).

Definition latin : UnicodeData := {|
  isalnum := latin_isalnum;
  isspace := latin_isspace;
  tolower_full := latin_tolower_full;
  iscased := latin_iscased;
  iscase_ignorable := latin_iscase_ignorable
|}.

(** ** Counting words: [collections.Counter]

    A [Counter] is a [dict], which iterates in the order its keys were
    first inserted; [most_common] depends on that order, so the counter
    is the list of its items in that order. *)

(** [counts[elem] = counts.get(elem, 0) + 1] *)
Fixpoint counter_add (elem : list N) (counts : list (list N * nat)) : list (list N * nat) :=
  match counts with
  | [] => [(elem, 1%nat)]
  | (key, n) :: rest =>
      if decide (key = elem) then (key, S n) :: rest
      else (key, n) :: counter_add elem rest
  end.

Definition Counter (iterable : list (list N)) : list (list N * nat) :=
  foldl (λ counts elem, counter_add elem counts) [] iterable.

(** [sorted(items, key=itemgetter(1), reverse=True)]: a stable sort,
    so items of equal count keep the order they had. *)
Fixpoint insert_by_count (item : list N * nat) (sorted : list (list N * nat)) : list (list N * nat) :=
  match sorted with
  | [] => [item]
  | item' :: rest =>
      if decide (item.2 < item'.2)%nat then item' :: insert_by_count item rest
      else item :: sorted
  end.

Definition sorted_by_count (items : list (list N * nat)) : list (list N * nat) :=
  foldr insert_by_count [] items.

(** [counts.most_common(n)], which is [heapq.nlargest(n, items, key=itemgetter(1))],
    documented as [sorted(items, key=itemgetter(1), reverse=True)[:n]]. *)
Definition most_common (n : nat) (counts : list (list N * nat)) : list (list N * nat) :=
  take n (sorted_by_count counts).

(** How often [t] occurs in [stream]. *)
Definition occurrences (t : list N) (stream : list (list N)) : nat :=
  length (filter (t =.) stream).

(** The first occurrence of [t1] in [stream] comes before every
    occurrence of [t2]. *)
Definition first_before (t1 t2 : list N) (stream : list (list N)) : Prop :=
  ∃ pre post, stream = pre ++ t1 :: post ∧ (t1 ∉ pre) ∧ (t2 ∉ pre).

(** The Vocabulary Ranker: the [k] most common tokens of a stream. *)
Definition top_terms (stream : list (list N)) (k : nat) : list (list N * nat) :=
  most_common k (Counter stream).

(** ** The inverted index *)

(** A row of the spreadsheet, its cells already turned into [str]. *)
Record post : Type := { Title : list N; Body : list N }.

(** [str(row["Title"]) + " " + str(row["Body"])] *)
Definition post_content (row : post) : list N := Title row ++ py " " ++ Body row.

(** [sorted(set(post_list))] *)
Definition sorted_set (post_list : list nat) : list nat :=
  merge_sort (≤)%nat (elements (list_to_set post_list : gset nat)).

(** [str(n)] of a non-negative integer. *)
Definition str_of_nat (n : nat) : list N := py (NilZero.string_of_uint (Nat.to_uint n)).

(** A row of [word_post_locations.xlsx]. *)
Record word_post : Type := { word : list N; posts : list N }.

Section Indexer.
Context (U : UnicodeData).

(** The body of the inner loop: one occurrence of [word] in the post
    at [post_index]. *)
Definition index_word (post_index : nat) (inverted_index : gmap (list N) (list nat))
    (word : list N) : gmap (list N) (list nat) :=
  let inverted_index :=
    match inverted_index !! word with
    | None => <[word := []]> inverted_index
    | Some _ => inverted_index
    end in
  alter (λ post_list, post_list ++ [(post_index + 1)%nat]) word inverted_index.

(** The outer loop over [df.iterrows()], from row [post_index] on. *)
Fixpoint index_posts (post_index : nat) (rows : list post)
    (inverted_index : gmap (list N) (list nat)) : gmap (list N) (list nat) :=
  match rows with
  | [] => inverted_index
  | row :: rows' =>
      let content := post_content row in
      let cleaned_content := clean_text U content in
      let words := str_split U cleaned_content in
      index_posts (S post_index) rows' (foldl (index_word post_index) inverted_index words)
  end.

(** The most common [k] words of the whole spreadsheet; the script
    takes [k = 15]. *)
Definition common_words (k : nat) (df : list post) : list (list N * nat) :=
  let all_text := str_join (py " ") (post_content <$> df) in
  let cleaned_text := clean_text U all_text in
  let word_counts := Counter (str_split U cleaned_text) in
  most_common k word_counts.

(** The common words found in the index, each with
    [sorted(set(post_list))]. *)
Definition common_postings (k : nat) (df : list post) : list (list N * list nat) :=
  let inverted_index := index_posts 0 df ∅ in
  omap (λ '(word, _),
          match inverted_index !! word with
          | Some post_list => Some (word, sorted_set post_list)
          | None => None
          end)
       (common_words k df).

(** [word_post_data] for the [k] most common words. *)
Definition word_post_data (k : nat) (df : list post) : list word_post :=
  (λ '(word, post_ids),
     {| word := word; posts := str_join (py ",") (str_of_nat <$> post_ids) |})
  <$> common_postings k df.

(** The rows the function writes to [word_post_locations.xlsx]. *)
Definition build_inverse_index_with_locations (df : list post) : list word_post :=
  word_post_data 15 df.
End Indexer.

(** The three posts of the specification's example: "funny cats
    jumping", "funny dogs running", "cats and dogs playing". *)
Definition cats_and_dogs : list post := [
  {| Title := py "funny cats"; Body := py "jumping" |};
  {| Title := py "funny dogs"; Body := py "running" |};
  {| Title := py "cats and"; Body := py "dogs playing" |}
].

(** ** TF-IDF *)

Inductive exn : Type :=
  | ValueError (msg : string)
  | IndexError (msg : string).

Inductive result (A : Type) : Type :=
  | Ok (a : A)
  | Raise (e : exn).
Arguments Ok {A} a.
Arguments Raise {A} e.

(** The order of [str]: lexicographic on code points. *)
Fixpoint str_le (a b : list N) : bool :=
  match a, b with
  | [], _ => true
  | _ :: _, [] => false
  | x :: a', y :: b' => if x <? y then true else if y <? x then false else str_le a' b'
  end.

(** The first exception of a loop, or all its results. *)
Fixpoint collect {A : Type} (steps : list (result A)) : result (list A) :=
  match steps with
  | [] => Ok []
  | Raise e :: _ => Raise e
  | Ok a :: steps' =>
      match collect steps' with
      | Ok rest => Ok (a :: rest)
      | Raise e => Raise e
      end
  end.

Section Tfidf.
Context (U : UnicodeData).

(** Floating-point numbers are not modelled: [float] stands for
    them, [tfidf_weight counts i j] for the weight the transformer
    gives cell [(i, j)] of the count matrix [counts] (smoothed
    logarithmic idf, rows normalized to unit length), and [np_sum]
    for the sum of an array. *)
Context {float : Type}.
Context (tfidf_weight : list (list nat) → nat → nat → float).
Context (np_sum : list float → float).

(** The analyzer of [TfidfVectorizer()]: lower-case, then the
    default [token_pattern]. *)
Definition analyze (doc : list N) : list (list N) :=
  findall_words2 U (str_lower U doc).

(** A document-term matrix of [n_rows] by [n_cols] cells. *)
Record matrix : Type := { n_rows : nat; n_cols : nat; cell : nat → nat → float }.

(** The fitted vectorizer and the matrix [fit_transform] returns. *)
Record fitted : Type := {
  vocabulary_ : gmap (list N) nat;
  feature_names : list (list N);
  tfidf_matrix : matrix
}.

Definition fit_transform (raw_documents : list (list N)) : result fitted :=
  let analyzed := analyze <$> raw_documents in
  let terms := merge_sort str_le (remove_dups (concat analyzed)) in
  match terms with
  | [] => Raise (ValueError "empty vocabulary; perhaps the documents only contain stop words")
  | _ =>
      let counts := (λ doc, (λ term, occurrences term doc) <$> terms) <$> analyzed in
      Ok {| vocabulary_ := list_to_map (zip terms (seq 0 (length terms)));
            feature_names := terms;
            tfidf_matrix := {| n_rows := length raw_documents;
                               n_cols := length terms;
                               cell := tfidf_weight counts |} |}
  end.

(** [tfidf_matrix[:, term_index].toarray()] *)
Definition column (m : matrix) (term_index : nat) : result (list float) :=
  if decide (term_index < n_cols m)%nat
  then Ok ((λ i, cell m i term_index) <$> seq 0 (n_rows m))
  else Raise (IndexError "index out of range").

(** What the loop prints for a query term. *)
Inductive query_result : Type :=
  | Score (term : list N) (tfidf_score : float)
  | NotFound (term : list N).

(** The body of the loop over the query terms. *)
Definition score (v : fitted) (term : list N) : result query_result :=
  let terms := feature_names v in
  if decide (term ∈ terms) then
    match vocabulary_ v !! term with
    | Some term_index =>
        match column (tfidf_matrix v) term_index with
        | Ok col => Ok (Score term (np_sum col))
        | Raise e => Raise e
        end
    | None => Raise (IndexError "index None")
    end
  else Ok (NotFound term).

Definition calculate_tfidf (df : list post) (query : list N) : result (list query_result) :=
  let content := post_content <$> df in
  let cleaned_content := clean_text U <$> content in
  (* Vectorize the cleaned content *)
  match fit_transform cleaned_content with
  | Raise e => Raise e
  | Ok v =>
      (* Calculate TF-IDF for the query terms *)
      let query_terms := str_split U (clean_text U query) in
      collect (score v <$> query_terms)
  end.
End Tfidf.

(** Floating-point arithmetic has no concrete value here.  Where a
    run needs numbers, the count of the term in the document stands
    for its weight and the sum of naturals for [np_sum]. *)
Definition count_weight (counts : list (list nat)) (i j : nat) : nat :=
  default 0%nat (row ← counts !! i; row !! j).

Definition nat_sum (column : list nat) : nat := foldr Nat.add 0%nat column.

(** A post with a one-letter word. *)
Definition b_cats : post := {| Title := py "b cats"; Body := py "dogs" |}.

(** ** Vocabulary of the further properties *)

(** The space that joins titles, bodies and posts ends every case
    context: Python has it neither cased nor case-ignorable. *)
Definition space_uncased (U : UnicodeData) : Prop :=
  iscased U 32 = false ∧ iscase_ignorable U 32 = false.

(** The entry of a dict of lists after [ids] were appended to it; an
    entry is created only when there is something to append. *)
Definition appended (entry : option (list nat)) (ids : list nat) : option (list nat) :=
  match ids with
  | [] => entry
  | _ => Some (default [] entry ++ ids)
  end.

(** The id of every post from row [post_index] on, once for each
    occurrence of [w] among its words. *)
Fixpoint occurrence_ids (U : UnicodeData) (post_index : nat) (rows : list post)
    (w : list N) : list nat :=
  match rows with
  | [] => []
  | row :: rows' =>
      replicate (occurrences w (normalize U (post_content row))) (post_index + 1)%nat
      ++ occurrence_ids U (S post_index) rows' w
  end.


(** ** The excerpt is a Python database *)

Lemma ascii_tolower_fixed c :
  ascii_tolower (ascii_tolower c) = ascii_tolower c ∧ (c < 128 → ascii_tolower c < 128).
Proof.
  unfold ascii_tolower, ascii_isupper.
  destruct (N.leb_spec 65 c) as [H1 | H1], (N.leb_spec c 90) as [H2 | H2]; simpl.
  2-4: split; [| done].
  2: by apply N.leb_le in H1 as ->; apply N.leb_gt in H2 as ->.
  2-3: by apply N.leb_gt in H1 as ->.
  destruct (N.leb_spec (c + 32) 90); [lia |].
  rewrite andb_false_r. split; [done | lia].
Qed.

Lemma latin_lower_fixed c d :
  d ∈ latin_tolower_full c → latin_tolower_full d = [d] ∧ d ≠ SIGMA.
Proof.
  unfold latin_tolower_full, SIGMA, small_sigma. intros Hd.
  destruct (N.ltb_spec c 128) as [Hc | Hc].
  { apply list_elem_of_singleton in Hd as ->.
    destruct (ascii_tolower_fixed c) as [Hf Hlt].
    apply Hlt, N.ltb_lt in Hc as Hc'. rewrite Hc', Hf.
    apply N.ltb_lt in Hc'. split; [done | lia]. }
  destruct (between 0xC0 0xD6 c || between 0xD8 0xDE c) eqn:Hup.
  { apply list_elem_of_singleton in Hd as ->.
    unfold between in *.
    assert (0xE0 ≤ c + 32 ≤ 0xFE) as Hr
      by (destruct (N.leb_spec 0xC0 c), (N.leb_spec c 0xD6), (N.leb_spec 0xD8 c),
            (N.leb_spec c 0xDE); simpl in Hup; try discriminate; lia).
    destruct (N.ltb_spec (c + 32) 128); [lia |].
    destruct (N.leb_spec 0xC0 (c + 32)), (N.leb_spec (c + 32) 0xD6),
      (N.leb_spec 0xD8 (c + 32)), (N.leb_spec (c + 32) 0xDE); simpl; try lia.
    all: destruct (N.eqb_spec (c + 32) 0x130), (N.eqb_spec (c + 32) 0x3A3); try lia.
    all: split; [done | lia]. }
  destruct (N.eqb_spec c 0x130) as [-> | Hi].
  { apply elem_of_cons in Hd as [-> | Hd]; [by vm_compute |].
    apply list_elem_of_singleton in Hd as ->. by vm_compute. }
  destruct (N.eqb_spec c 0x3A3) as [-> | Hs].
  { apply list_elem_of_singleton in Hd as ->. by vm_compute. }
  apply list_elem_of_singleton in Hd as ->.
  apply N.ltb_ge in Hc as ->. rewrite Hup.
  apply N.eqb_neq in Hi as ->. split; [| done].
  by apply N.eqb_neq in Hs as ->.
Qed.

#[export] Instance latin_python : PythonUnicode latin.
Proof.
  split; simpl.
  - intros c Hc. unfold latin_isspace. by apply N.ltb_lt in Hc as ->.
  - intros c Hc. unfold latin_isalnum. by apply N.ltb_lt in Hc as ->.
  - intros c Hc. unfold latin_tolower_full. by apply N.ltb_lt in Hc as ->.
  - apply latin_lower_fixed.
  - by vm_compute.
Qed.

Example clean_text_ex1 :
  clean_text latin (py "The Funny CATS, and a dog!") = py "funny cats dog".
Proof. vm_compute. reflexivity. Qed.

Example normalize_ex1 :
  normalize latin (py "It's  cats_and dogs") = [py "its"; py "cats_and"; py "dogs"].
Proof. vm_compute. reflexivity. Qed.

Example str_lower_sigma :
  str_lower latin [0x41; SIGMA; 0x20; SIGMA; 0x41] = [0x61; final_sigma; 0x20; small_sigma; 0x61].
Proof. vm_compute. reflexivity. Qed.


(** ** Runs, joins and lower-casing *)

Section RunsFacts.
Context (keep : N → bool).

Lemma runs_from_keep_app word t s :
  Forall (λ c, keep c = true) t →
  runs_from keep word (t ++ s) = runs_from keep (word ++ t) s.
Proof.
  intros Ht. revert word. induction Ht as [| c t Hc _ IH]; intros word; simpl.
  - by rewrite app_nil_r.
  - rewrite Hc, IH. by rewrite <- app_assoc.
Qed.

Lemma runs_from_stop word c s :
  keep c = false → runs_from keep word (c :: s) = flush word ++ runs keep s.
Proof. intros Hc. simpl. by rewrite Hc. Qed.

(** Every run is non-empty; its characters come from the run being
    read or are kept characters of the rest. *)
Lemma runs_from_elem word s t :
  t ∈ runs_from keep word s →
  t ≠ [] ∧ Forall (λ c, c ∈ word ∨ (c ∈ s ∧ keep c = true)) t.
Proof.
  revert word. induction s as [| c s IH]; intros word; simpl.
  - destruct word as [| x word]; simpl; [by intros ?%elem_of_nil |].
    intros ->%list_elem_of_singleton. split; [done |].
    apply Forall_forall. auto.
  - destruct (keep c) eqn:Hc.
    + intros [Hne Hall]%IH. split; [done |].
      eapply Forall_impl; [exact Hall |]. simpl. intros x [Hx | [Hx Hk]].
      * apply elem_of_app in Hx as [Hx | ->%list_elem_of_singleton]; [by left |].
        right. split; [left | done].
      * right. split; [by right | done].
    + intros [Ht | Ht]%elem_of_app.
      * destruct word as [| x word]; simpl in Ht; [by apply elem_of_nil in Ht |].
        apply list_elem_of_singleton in Ht as ->. split; [done |].
        apply Forall_forall. auto.
      * apply IH in Ht as [Hne Hall]. split; [done |].
        eapply Forall_impl; [exact Hall |]. simpl. intros x [Hx | [Hx Hk]].
        -- by apply elem_of_nil in Hx.
        -- right. split; [by right | done].
Qed.

Lemma runs_elem s t :
  t ∈ runs keep s → t ≠ [] ∧ Forall (λ c, c ∈ s ∧ keep c = true) t.
Proof.
  intros [Hne Hall]%runs_from_elem. split; [done |].
  eapply Forall_impl; [exact Hall |]. simpl. intros x [Hx | Hx]; [| done].
  by apply elem_of_nil in Hx.
Qed.

Lemma runs_all_runs s : Forall (is_run keep) (runs keep s).
Proof.
  apply Forall_forall. intros t [Hne Hall]%runs_elem. split; [done |].
  eapply Forall_impl; [exact Hall |]. by intros x [_ ?].
Qed.

(** Splitting what was joined by a character outside [keep] gives
    the pieces back. *)
Lemma runs_join sep toks :
  keep sep = false → Forall (is_run keep) toks → runs keep (str_join [sep] toks) = toks.
Proof.
  intros Hsep Htoks. induction Htoks as [| t toks [Hne Ht] Htoks IH]; [done |].
  unfold runs. destruct toks as [| t' toks].
  - simpl. pose proof (runs_from_keep_app [] t [] Ht) as Hrun.
    rewrite app_nil_r in Hrun. rewrite Hrun. simpl. by destruct t.
  - change (str_join [sep] (t :: t' :: toks))
      with (t ++ sep :: str_join [sep] (t' :: toks)).
    rewrite runs_from_keep_app, runs_from_stop, IH by done.
    by destruct t.
Qed.
End RunsFacts.

Section LowerFacts.
Context (U : UnicodeData) `{!PythonUnicode U}.

Lemma lower_from_elem before s d :
  d ∈ lower_from U before s →
  (∃ c, c ∈ s ∧ d ∈ tolower_full U c) ∨ d = final_sigma ∨ d = small_sigma.
Proof.
  revert before. induction s as [| c s IH]; intros before; simpl.
  - by intros ?%elem_of_nil.
  - intros [Hd | Hd]%elem_of_app.
    + destruct (decide (c = SIGMA)).
      * apply list_elem_of_singleton in Hd. right.
        destruct (in_final_sigma_context U before s); auto.
      * left. exists c. split; [left | done].
    + apply IH in Hd as [(c' & Hc' & Hd) | Hd]; [| by right].
      left. exists c'. split; [by right | done].
Qed.

Lemma str_lower_fixed s : Forall (lower_fixed U) (str_lower U s).
Proof.
  apply Forall_forall. intros d [(c & _ & Hd) | [-> | ->]]%lower_from_elem.
  - by apply uni_lower_fixed in Hd.
  - split; [apply uni_sigma_fixed | done].
  - split; [apply uni_sigma_fixed | done].
Qed.

Lemma lower_from_fixed before s : Forall (lower_fixed U) s → lower_from U before s = s.
Proof.
  intros Hs. revert before. induction Hs as [| c s [Hc Hne] _ IH]; intros before; [done |].
  simpl. rewrite decide_False by done. by rewrite Hc, IH.
Qed.

Lemma space_is_space : isspace U 32 = true.
Proof. by rewrite uni_ascii_space. Qed.

Lemma space_not_word : re_word U 32 = false.
Proof. unfold re_word. by rewrite uni_ascii_alnum. Qed.

Lemma space_lower_fixed : lower_fixed U 32.
Proof. split; [by rewrite uni_ascii_lower | done]. Qed.

(** No upper-case ASCII letter is left alone by [str.lower]. *)
Lemma lower_fixed_not_upper d : lower_fixed U d → ascii_isupper d = false.
Proof.
  intros [Hd _]. destruct (ascii_isupper d) eqn:Hup; [| done].
  unfold ascii_isupper in Hup. apply andb_true_iff in Hup as [H1%N.leb_le H2%N.leb_le].
  rewrite uni_ascii_lower in Hd by lia. unfold ascii_tolower, ascii_isupper in Hd.
  apply N.leb_le in H1 as H1', H2 as H2'. rewrite H1', H2' in Hd. simpl in Hd.
  injection Hd. lia.
Qed.
End LowerFacts.


(** ** The normalizer *)

Lemma filter_all {A} (P : A → Prop) `{!∀ x, Decision (P x)} (l : list A) :
  Forall P l → filter P l = l.
Proof.
  induction 1 as [| x l Hx _ IH]; [done |].
  by rewrite filter_cons, decide_True, IH.
Qed.

Lemma filter_none {A} (P : A → Prop) `{!∀ x, Decision (P x)} (l : list A) :
  Forall (λ x, ¬ P x) l → filter P l = [].
Proof.
  induction 1 as [| x l Hx _ IH]; [done |].
  by rewrite filter_cons, decide_False, IH.
Qed.

Lemma Forall_filter_2 {A} (P Q : A → Prop) `{!∀ x, Decision (P x)} (l : list A) :
  Forall Q l → Forall Q (filter P l).
Proof.
  rewrite !Forall_forall. intros HQ x [_ Hx]%list_elem_of_filter. auto.
Qed.

Lemma Forall_str_join (P : N → Prop) sep toks :
  Forall P sep → Forall (Forall P) toks → Forall P (str_join sep toks).
Proof.
  intros Hsep. induction 1 as [| t toks Ht Htoks IH]; [constructor |].
  destruct toks as [| t' toks]; [done |].
  change (Forall P (t ++ sep ++ str_join sep (t' :: toks))).
  rewrite !Forall_app. auto.
Qed.

Section NormalizerFacts.
Context (U : UnicodeData) `{!PythonUnicode U}.

Lemma clean_text_join s : clean_text U s = str_join (py " ") (words_of U s).
Proof. reflexivity. Qed.

(** The words are runs of non-blank characters of the lower-cased
    text. *)
Lemma words_of_elem s tok :
  tok ∈ words_of U s →
  (tok ∉ STOPWORDS) ∧ (tok ≠ []) ∧
  Forall (λ c, c ∈ str_lower U (re_sub_nonword_nonspace U s) ∧ isspace U c = false) tok.
Proof.
  unfold words_of, str_split.
  intros [Hstop [Hne Hall]%runs_elem]%list_elem_of_filter. repeat split; [done.. |].
  eapply Forall_impl; [exact Hall |]. simpl. intros c [Hc Hsp]. split; [done |].
  by apply negb_true_iff in Hsp.
Qed.

Lemma words_of_runs s : Forall (is_run (λ c, negb (isspace U c))) (words_of U s).
Proof. apply Forall_filter_2, runs_all_runs. Qed.

(** Splitting the cleaned text gives the words it was joined from. *)
Lemma normalize_words s : normalize U s = words_of U s.
Proof.
  unfold normalize, str_split. rewrite clean_text_join.
  apply (runs_join _ 32); [| apply words_of_runs].
  by rewrite space_is_space.
Qed.

Lemma normalize_nothing_left s :
  Forall (λ c, ¬ stripped_to U c) s → normalize U s = [].
Proof.
  intros Hs. unfold normalize, clean_text, re_sub_nonword_nonspace.
  by rewrite (filter_none (λ c, Is_true (re_word U c || re_space U c)) s Hs).
Qed.

(** [str.lower] leaves the cleaned text alone. *)
Lemma clean_text_lower_fixed s : Forall (lower_fixed U) (clean_text U s).
Proof.
  rewrite clean_text_join. apply Forall_str_join.
  - apply Forall_singleton, space_lower_fixed; done.
  - apply Forall_forall. intros tok (_ & _ & Hall)%words_of_elem.
    eapply Forall_impl; [exact Hall |]. simpl. intros c [Hc _].
    pose proof (str_lower_fixed U (re_sub_nonword_nonspace U s)) as Hfix.
    rewrite Forall_forall in Hfix. auto.
Qed.

Lemma str_lower_clean_text s : str_lower U (clean_text U s) = clean_text U s.
Proof. apply lower_from_fixed, clean_text_lower_fixed. Qed.

(** When lower-casing brings back no character that [re.sub] would
    strip, the words are made of word characters. *)
Lemma words_of_word_chars s tok :
  lowercases_cleanly U s → tok ∈ words_of U s → Forall (λ c, re_word U c) tok.
Proof.
  intros Hs (_ & _ & Hall)%words_of_elem.
  eapply Forall_impl; [exact Hall |]. simpl. intros c [Hc Hsp].
  unfold lowercases_cleanly in Hs. rewrite Forall_forall in Hs.
  apply Hs in Hc. unfold stripped_to, re_space in Hc. rewrite Hsp in Hc.
  by rewrite orb_false_r in Hc.
Qed.

Lemma clean_text_survives s :
  lowercases_cleanly U s → Forall (stripped_to U) (clean_text U s).
Proof.
  intros Hs. rewrite clean_text_join. apply Forall_str_join.
  - apply Forall_singleton. unfold stripped_to, re_space.
    by rewrite space_is_space, orb_true_r.
  - apply Forall_forall. intros tok Htok%(words_of_word_chars s _ Hs).
    eapply Forall_impl; [exact Htok |]. simpl. intros c Hc. unfold stripped_to.
    by destruct (re_word U c).
Qed.

Lemma words_of_clean_text s :
  lowercases_cleanly U s → words_of U (clean_text U s) = words_of U s.
Proof.
  intros Hs. unfold words_of at 1, re_sub_nonword_nonspace.
  rewrite (filter_all (λ c, Is_true (re_word U c || re_space U c)) _
             (clean_text_survives s Hs)).
  rewrite str_lower_clean_text.
  fold (normalize U s). rewrite normalize_words.
  apply filter_all. apply Forall_forall. by intros tok (? & _)%words_of_elem.
Qed.

(** ASCII text lower-cases cleanly. *)
Lemma ascii_stripped_to_lower c :
  c < 128 → stripped_to U c → c ≠ SIGMA ∧ Forall (stripped_to U) (tolower_full U c).
Proof.
  intros Hc Hk. split; [unfold SIGMA; lia |].
  rewrite uni_ascii_lower by done. apply Forall_singleton.
  unfold stripped_to, re_word, re_space, ascii_tolower in *.
  destruct (ascii_isupper c) eqn:Hup; [| done].
  unfold ascii_isupper in Hup. apply andb_true_iff in Hup as [H1%N.leb_le H2%N.leb_le].
  rewrite uni_ascii_alnum by lia.
  unfold ascii_isalnum, ascii_islower.
  replace (97 <=? c + 32) with true by (symmetry; apply N.leb_le; lia).
  replace (c + 32 <=? 122) with true by (symmetry; apply N.leb_le; lia).
  simpl. by rewrite orb_true_r.
Qed.

Lemma lower_from_ascii before s :
  Forall (λ c, c < 128 ∧ stripped_to U c) s → Forall (stripped_to U) (lower_from U before s).
Proof.
  intros Hs. revert before. induction Hs as [| c s [Hc Hk] _ IH]; intros before; [constructor |].
  simpl. destruct (ascii_stripped_to_lower c Hc Hk) as [Hne Hlow].
  rewrite decide_False by done. apply Forall_app. auto.
Qed.

Lemma ascii_lowercases_cleanly s : Forall (λ c, c < 128) s → lowercases_cleanly U s.
Proof.
  intros Hs. apply lower_from_ascii. apply Forall_forall.
  intros c [Hk Hc]%list_elem_of_filter. split; [| done].
  rewrite Forall_forall in Hs. auto.
Qed.
End NormalizerFacts.


(** ** Claims about the normalizer *)

(** The words of "İ" (U+0130) in any database that gives U+0130 and
    U+0307 the properties Python gives them: lower-casing turns the
    letter into "i" followed by a combining dot, which [re.sub] has no
    chance to strip; cleaning the result again strips the dot and
    leaves the stop word "i". *)
Lemma dotted_I_words (U : UnicodeData) `{!PythonUnicode U} :
  isalnum U 0x130 = true → tolower_full U 0x130 = [0x69; 0x307] →
  isalnum U 0x307 = false → isspace U 0x307 = false →
  normalize U [0x130] = [[0x69; 0x307]] ∧
  normalize U (str_join (py " ") (normalize U [0x130])) = [].
Proof.
  intros Halnum Hlow Hdot Hdotsp.
  assert (isspace U 0x69 = false) as Hi by by rewrite uni_ascii_space.
  assert (isalnum U 0x69 = true) as Hia by by rewrite uni_ascii_alnum.
  assert (tolower_full U 0x69 = [0x69]) as Hil by by rewrite uni_ascii_lower.
  assert (normalize U [0x130] = [[0x69; 0x307]]) as Hfirst.
  { rewrite normalize_words by done.
    unfold words_of, re_sub_nonword_nonspace, re_word, re_space.
    rewrite filter_cons, Halnum. simpl.
    unfold str_lower, str_split, runs. simpl.
    rewrite Hlow. simpl. rewrite Hi, Hdotsp. simpl.
    by vm_compute. }
  split; [done |]. rewrite Hfirst, normalize_words by done.
  unfold words_of, re_sub_nonword_nonspace, re_word, re_space.
  change (str_join (py " ") [[0x69; 0x307]]) with [0x69; 0x307].
  rewrite !filter_cons, Hia, Hdot, Hdotsp. simpl.
  unfold str_lower, str_split, runs. simpl.
  rewrite Hil. simpl. rewrite Hi. simpl.
  by vm_compute.
Qed.

(** C8. Normalization is total: for every string the cleaning steps
    produce a token sequence, which the cleaned text is the
    single-space join of; a string with no word or white-space
    character (empty, punctuation only, emoji) gives the empty
    sequence.  No step of [clean_text] can raise. *)
Theorem normalize_total (U : UnicodeData) `{!PythonUnicode U} (s : list N) :
  ∃ toks : list (list N),
    normalize U s = toks ∧
    clean_text U s = str_join (py " ") toks ∧
    Forall (λ tok, tok ≠ []) toks ∧
    (Forall (λ c, ¬ stripped_to U c) s → toks = []).
Proof.
  exists (normalize U s). split; [done |]. split; [| split].
  - by rewrite normalize_words, clean_text_join.
  - rewrite normalize_words by done. eapply Forall_impl; [apply words_of_runs; done |].
    by intros tok [? _].
  - by apply normalize_nothing_left.
Qed.

Lemma normalize_total_witness :
  ∃ toks : list (list N),
    normalize latin [0x1F600; 0x21; 0x3F] = toks ∧
    clean_text latin [0x1F600; 0x21; 0x3F] = str_join (py " ") toks ∧
    Forall (λ tok, tok ≠ []) toks ∧
    (Forall (λ c, ¬ stripped_to latin c) [0x1F600; 0x21; 0x3F] → toks = []).
Proof. exact (@normalize_total latin latin_python [0x1F600; 0x21; 0x3F]). Defined.

(** C10, as the code has it.  Every token of [normalize] is non-empty,
    holds no white space and no upper-case ASCII letter and is not a
    stop word; when lower-casing brings back no character that
    [re.sub] strips, as for every ASCII input, it is made of word
    characters only. *)
Theorem normalize_tokens_well_formed (U : UnicodeData) `{!PythonUnicode U}
    (s tok : list N) :
  tok ∈ normalize U s →
  tok ≠ [] ∧
  Forall (λ c, isspace U c = false) tok ∧
  Forall (λ c, ascii_isupper c = false) tok ∧
  (tok ∉ STOPWORDS) ∧
  (lowercases_cleanly U s → Forall (λ c, re_word U c) tok) ∧
  (Forall (λ c, c < 128) s → Forall (λ c, re_word U c) tok).
Proof.
  rewrite normalize_words by done. intros Htok.
  pose proof Htok as (Hstop & Hne & Hall)%words_of_elem.
  split; [done |]. split; [| split; [| split; [done |]]].
  - eapply Forall_impl; [exact Hall |]. by intros c [_ ?].
  - eapply Forall_impl; [exact Hall |]. simpl. intros c [Hc _].
    apply (lower_fixed_not_upper U).
    pose proof (str_lower_fixed U (re_sub_nonword_nonspace U s)) as Hfix.
    rewrite Forall_forall in Hfix. auto.
  - split.
    + intros Hs. by apply (words_of_word_chars U s).
    + intros Hs. apply (words_of_word_chars U s); [| done].
      by apply ascii_lowercases_cleanly.
Qed.

Lemma normalize_tokens_well_formed_witness :
  py "cats" ∈ normalize latin (py "The CATS!") ∧
  (py "cats" ≠ [] ∧
   Forall (λ c, isspace latin c = false) (py "cats") ∧
   Forall (λ c, ascii_isupper c = false) (py "cats") ∧
   (py "cats" ∉ STOPWORDS) ∧
   (lowercases_cleanly latin (py "The CATS!") → Forall (λ c, re_word latin c) (py "cats")) ∧
   (Forall (λ c, c < 128) (py "The CATS!") → Forall (λ c, re_word latin c) (py "cats"))).
Proof.
  assert (py "cats" ∈ normalize latin (py "The CATS!")) as Hin
    by (vm_compute; apply list_elem_of_singleton; reflexivity).
  split; [exact Hin |].
  exact (@normalize_tokens_well_formed latin latin_python _ _ Hin).
Defined.

(** C10 as stated fails: the one token of "İ" (U+0130) ends in
    U+0307, a combining mark, which is not a word character. *)
Lemma normalize_token_not_word :
  ¬ (∀ tok, tok ∈ normalize latin [0x130] →
       tok ≠ [] ∧ Forall (λ c, re_word latin c) tok ∧
       Forall (λ c, ascii_isupper c = false) tok ∧ (tok ∉ STOPWORDS)).
Proof.
  intros Hclaim. destruct (Hclaim [0x69; 0x307]) as (_ & Hword & _).
  - vm_compute. apply list_elem_of_singleton. reflexivity.
  - rewrite Forall_forall in Hword.
    assert (Is_true (re_word latin 0x307)) as Hdot
      by (apply Hword, list_elem_of_further, list_elem_of_here).
    vm_compute in Hdot. exact Hdot.
Qed.

(** C6, as the code has it.  Normalizing the rejoined tokens gives the
    same tokens whenever lower-casing brings back no character that
    [re.sub] strips. *)
Theorem normalize_idempotent (U : UnicodeData) `{!PythonUnicode U} (s : list N) :
  lowercases_cleanly U s →
  normalize U (str_join (py " ") (normalize U s)) = normalize U s.
Proof.
  intros Hs.
  (* the rejoined tokens are the cleaned text *)
  rewrite (normalize_words U s), <- clean_text_join.
  (* cleaning it again strips nothing, lowers nothing and drops no word *)
  rewrite !normalize_words by done.
  by apply words_of_clean_text.
Qed.

Lemma normalize_idempotent_witness :
  lowercases_cleanly latin (py "The Funny CATS, and a dog!") ∧
  normalize latin (str_join (py " ") (normalize latin (py "The Funny CATS, and a dog!")))
  = normalize latin (py "The Funny CATS, and a dog!").
Proof.
  assert (lowercases_cleanly latin (py "The Funny CATS, and a dog!")) as Hs
    by (apply (ascii_lowercases_cleanly latin), (bool_decide_unpack _);
        vm_compute; exact I).
  split; [exact Hs |].
  exact (@normalize_idempotent latin latin_python _ Hs).
Defined.

(** C6 as stated fails at "İ" (U+0130): its tokens are the single
    token "i" + U+0307, and normalizing that token again strips the
    combining dot and drops the stop word "i" that is left. *)
Lemma normalize_not_idempotent :
  normalize latin (str_join (py " ") (normalize latin [0x130])) ≠ normalize latin [0x130].
Proof. vm_compute. discriminate. Qed.


(** ** The counter and [most_common] *)

Lemma filter_sublist_mono {A} (P : A → Prop) `{!∀ x, Decision (P x)} (l k : list A) :
  l `sublist_of` k → filter P l `sublist_of` filter P k.
Proof.
  induction 1 as [| x l k _ IH | x l k _ IH]; [done | |]; rewrite !filter_cons.
  - destruct (decide (P x)); [by apply sublist_skip | done].
  - destruct (decide (P x)); [by apply sublist_cons | done].
Qed.

Lemma lookup_lt_sublist {A} (l : list A) i j x y :
  (i < j)%nat → l !! i = Some x → l !! j = Some y → [x; y] `sublist_of` l.
Proof.
  intros Hij Hi Hj. rewrite <- (take_drop_middle l i x Hi).
  apply sublist_inserts_l, sublist_skip, singleton_sublist_l.
  apply list_elem_of_lookup. exists (j - S i)%nat.
  rewrite lookup_drop. rewrite <- Hj. f_equal. lia.
Qed.

Section CounterFacts.
Implicit Types (t x : list N) (stream : list (list N)) (counts : list (list N * nat)).

Lemma Counter_snoc stream t : Counter (stream ++ [t]) = counter_add t (Counter stream).
Proof. unfold Counter. by rewrite foldl_snoc. Qed.

Lemma counter_add_keys t counts :
  (counter_add t counts).*1 =
  if decide (t ∈ counts.*1) then counts.*1 else counts.*1 ++ [t].
Proof.
  induction counts as [| [key n] rest IH]; [done |].
  cbn [counter_add]. destruct (decide (key = t)) as [-> | Hne]; rewrite !fmap_cons; cbn [fst].
  - rewrite decide_True; [done | apply list_elem_of_here].
  - rewrite IH. destruct (decide (t ∈ rest.*1)) as [Hin | Hnin].
    + rewrite decide_True; [done | by apply list_elem_of_further].
    + rewrite decide_False; [done |].
      intros [? | ?]%elem_of_cons; congruence.
Qed.

Lemma counter_add_NoDup t counts :
  NoDup counts.*1 → NoDup (counter_add t counts).*1.
Proof.
  intros Hnd. rewrite counter_add_keys. destruct (decide (t ∈ counts.*1)); [done |].
  apply NoDup_app. split; [done |]. split; [| apply NoDup_singleton].
  by intros x Hx ->%list_elem_of_singleton.
Qed.

Lemma counter_add_elem t counts x n :
  NoDup counts.*1 →
  (x, n) ∈ counter_add t counts →
  (x ≠ t ∧ (x, n) ∈ counts) ∨
  (x = t ∧ ((∃ m, (t, m) ∈ counts ∧ n = S m) ∨ ((t ∉ counts.*1) ∧ n = 1%nat))).
Proof.
  induction counts as [| [key m] rest IH]; simpl.
  - intros _ [= -> ->]%list_elem_of_singleton. right. split; [done |]. right.
    split; [apply not_elem_of_nil | done].
  - intros [Hkey Hnd]%NoDup_cons. destruct (decide (key = t)) as [-> | Hne].
    + intros [[= -> ->] | Hin]%elem_of_cons.
      * right. split; [done |]. left. exists m. split; [apply list_elem_of_here | done].
      * left. split; [| by apply list_elem_of_further].
        intros ->. apply Hkey. apply list_elem_of_fmap. by exists (t, n).
    + intros [[= -> ->] | Hin]%elem_of_cons.
      * left. split; [done | apply list_elem_of_here].
      * destruct (IH Hnd Hin) as [[Hx Hrest] | [-> [(m' & Hm' & ->) | [Hnew ->]]]].
        -- left. split; [done | by apply list_elem_of_further].
        -- right. split; [done |]. left. exists m'.
           split; [by apply list_elem_of_further | done].
        -- right. split; [done |]. right. split; [| done].
           intros [? | ?]%elem_of_cons; [congruence | by apply Hnew].
Qed.

Lemma Counter_NoDup stream : NoDup (Counter stream).*1.
Proof.
  induction stream as [| t stream IH] using rev_ind; [apply NoDup_nil_2 |].
  rewrite Counter_snoc. by apply counter_add_NoDup.
Qed.

(** The keys of the counter are the tokens of the stream. *)
Lemma Counter_keys stream t : t ∈ (Counter stream).*1 ↔ t ∈ stream.
Proof.
  induction stream as [| t' stream IH] using rev_ind.
  - split; by intros ?%elem_of_nil.
  - rewrite Counter_snoc, counter_add_keys, elem_of_app, list_elem_of_singleton.
    destruct (decide (t' ∈ (Counter stream).*1)) as [Hin | Hnin].
    + rewrite IH. split; [by left |]. intros [? | ->]; [done | by apply IH].
    + by rewrite elem_of_app, list_elem_of_singleton, IH.
Qed.

Lemma occurrences_snoc t stream t' :
  occurrences t (stream ++ [t']) =
  (occurrences t stream + if decide (t = t') then 1 else 0)%nat.
Proof.
  unfold occurrences. rewrite filter_app, length_app. f_equal.
  rewrite filter_cons. by destruct (decide (t = t')).
Qed.

Lemma occurrences_pos t stream : t ∈ stream ↔ (0 < occurrences t stream)%nat.
Proof.
  unfold occurrences. split.
  - intros Hin. assert (t ∈ filter (t =.) stream) as Hf by by apply list_elem_of_filter.
    destruct (filter (t =.) stream); [by apply elem_of_nil in Hf | simpl; lia].
  - destruct (filter (t =.) stream) as [| x l] eqn:Hf; simpl; [lia |]. intros _.
    assert (x ∈ filter (t =.) stream) as [<- ?]%list_elem_of_filter
      by (rewrite Hf; apply list_elem_of_here).
    done.
Qed.

(** Each item carries the number of occurrences of its key. *)
Lemma Counter_elem stream t n :
  (t, n) ∈ Counter stream → n = occurrences t stream ∧ t ∈ stream.
Proof.
  revert t n. induction stream as [| t' stream IH] using rev_ind; intros t n.
  - by intros ?%elem_of_nil.
  - rewrite Counter_snoc. intros Hin.
    apply counter_add_elem in Hin; [| apply Counter_NoDup].
    rewrite occurrences_snoc, elem_of_app, list_elem_of_singleton.
    destruct Hin as [[Hne Hin] | [-> [(m & Hm & ->) | [Hnew ->]]]].
    + apply IH in Hin as [-> ?]. rewrite decide_False by done. split; [lia | by left].
    + apply IH in Hm as [-> ?]. rewrite decide_True by done. split; [lia | by left].
    + rewrite decide_True by done. split; [| by right].
      rewrite Counter_keys, occurrences_pos in Hnew. lia.
Qed.

(** The keys come in the order of their first occurrence. *)
Lemma Counter_order stream t1 t2 :
  [t1; t2] `sublist_of` (Counter stream).*1 → first_before t1 t2 stream.
Proof.
  induction stream as [| t stream IH] using rev_ind.
  - by intros ?%sublist_nil_r.
  - assert (first_before t1 t2 stream → first_before t1 t2 (stream ++ [t])) as Hext.
    { intros (pre & post & -> & H1 & H2). exists pre, (post ++ [t]).
      by rewrite <- app_assoc. }
    rewrite Counter_snoc, counter_add_keys.
    destruct (decide (t ∈ (Counter stream).*1)) as [Hin | Hnin]; [by auto |].
    intros (l1 & l2 & Heq & Hl1 & Hl2)%sublist_app_r.
    apply sublist_cons_r in Hl2 as [->%sublist_nil_r | (l' & -> & ->%sublist_nil_r)].
    + rewrite app_nil_r in Heq. subst l1. auto.
    + destruct l1 as [| a [| b l1]]; simpl in Heq; [discriminate | |].
      2: { injection Heq as _ _ Habs. by destruct l1. }
      injection Heq as <- <-.
      apply singleton_sublist_l in Hl1. apply (proj1 (Counter_keys _ _)) in Hl1.
      apply list_elem_of_split_l in Hl1 as (pre & post & -> & Hpre).
      exists pre, (post ++ [t2]). rewrite <- app_assoc. split; [done |].
      split; [done |]. intros Ht2. apply Hnin, Counter_keys, elem_of_app. by left.
Qed.

(** *** The stable sort *)

Lemma insert_by_count_Permutation item counts :
  insert_by_count item counts ≡ₚ item :: counts.
Proof.
  induction counts as [| item' rest IH]; simpl; [done |].
  destruct (decide (item.2 < item'.2)%nat); [| done].
  rewrite IH. apply Permutation_swap.
Qed.

Lemma sorted_by_count_Permutation counts : sorted_by_count counts ≡ₚ counts.
Proof.
  induction counts as [| item rest IH]; simpl; [done |].
  by rewrite insert_by_count_Permutation, IH.
Qed.

Lemma insert_by_count_sorted item counts :
  StronglySorted (λ a b, (b.2 ≤ a.2)%nat) counts →
  StronglySorted (λ a b, (b.2 ≤ a.2)%nat) (insert_by_count item counts).
Proof.
  induction 1 as [| item' rest Hrest IH Hall]; simpl; [repeat constructor |].
  destruct (decide (item.2 < item'.2)%nat) as [Hlt | Hge].
  - constructor; [done |].
    rewrite insert_by_count_Permutation. constructor; [lia | done].
  - constructor; [by constructor |]. constructor; [lia |].
    eapply Forall_impl; [exact Hall |]. simpl. lia.
Qed.

Lemma sorted_by_count_sorted counts :
  StronglySorted (λ a b, (b.2 ≤ a.2)%nat) (sorted_by_count counts).
Proof.
  induction counts as [| item rest IH]; simpl; [constructor |].
  by apply insert_by_count_sorted.
Qed.

(** Stability: the items of one count keep their order. *)
Lemma insert_by_count_filter n item counts :
  filter (λ a, a.2 = n) (insert_by_count item counts) =
  filter (λ a, a.2 = n) (item :: counts).
Proof.
  induction counts as [| item' rest IH]; simpl; [done |].
  destruct (decide (item.2 < item'.2)%nat) as [Hlt | Hge]; [| done].
  rewrite (filter_cons _ item'), IH, !filter_cons.
  destruct (decide (item.2 = n)), (decide (item'.2 = n)); try done. lia.
Qed.

Lemma sorted_by_count_filter n counts :
  filter (λ a, a.2 = n) (sorted_by_count counts) = filter (λ a, a.2 = n) counts.
Proof.
  induction counts as [| item rest IH]; simpl; [done |].
  by rewrite insert_by_count_filter, !filter_cons, IH.
Qed.

Lemma sorted_by_count_stable counts a b :
  a.2 = b.2 → [a; b] `sublist_of` sorted_by_count counts → [a; b] `sublist_of` counts.
Proof.
  intros Hab Hsub.
  apply (filter_sublist_mono (λ c, c.2 = a.2)) in Hsub.
  rewrite sorted_by_count_filter in Hsub.
  rewrite !filter_cons, decide_True, decide_True in Hsub by done.
  etrans; [exact Hsub | apply sublist_filter].
Qed.
End CounterFacts.


Lemma StronglySorted_sublist_pair {A} (R : relation A) (l : list A) a b :
  StronglySorted R l → [a; b] `sublist_of` l → R a b.
Proof.
  intros Hl (k1 & k2 & -> & Hb%singleton_sublist_l)%sublist_cons_l.
  apply StronglySorted_app_1_r, StronglySorted_cons in Hl as [Hall _].
  rewrite Forall_forall in Hall. auto.
Qed.

(** C2. The output of the Vocabulary Ranker, [most_common k] of the
    counter of the stream: it has [k] items, or all distinct terms
    when there are fewer; each item carries the frequency of its
    term; frequencies never increase along the output; terms of equal
    frequency come in the order of their first occurrence in the
    stream; no term left out is more frequent than a term kept. *)
Theorem top_terms_ranked (stream : list (list N)) (k : nat) :
  let out := top_terms stream k in
  length out = (k `min` length (remove_dups stream))%nat ∧
  NoDup out.*1 ∧
  (∀ t n, (t, n) ∈ out → n = occurrences t stream ∧ (1 ≤ n)%nat) ∧
  (∀ i j a b, (i < j)%nat → out !! i = Some a → out !! j = Some b →
     (b.2 ≤ a.2)%nat ∧ (a.2 = b.2 → first_before a.1 b.1 stream)) ∧
  (∀ t b, t ∈ stream → t ∉ out.*1 → b ∈ out → (occurrences t stream ≤ b.2)%nat).
Proof.
  intros out. unfold out, top_terms, most_common.
  set (counts := Counter stream). set (ranked := sorted_by_count counts).
  assert (ranked ≡ₚ counts) as Hperm by apply sorted_by_count_Permutation.
  assert (StronglySorted (λ a b, (b.2 ≤ a.2)%nat) ranked) as Hsorted
    by apply sorted_by_count_sorted.
  assert (NoDup ranked.*1) as Hnd by (rewrite Hperm; apply Counter_NoDup).
  assert (∀ t n, (t, n) ∈ ranked → n = occurrences t stream ∧ t ∈ stream) as Helem.
  { intros t n Hin. rewrite Hperm in Hin. by apply Counter_elem. }
  split; [| split; [| split; [| split]]].
  - rewrite length_take. f_equal. rewrite <- (length_fmap fst), Hperm.
    apply Permutation_length, NoDup_Permutation.
    + apply Counter_NoDup.
    + apply NoDup_remove_dups.
    + intros t. unfold counts. by rewrite Counter_keys, elem_of_remove_dups.
  - rewrite fmap_take. eapply sublist_NoDup; [exact Hnd | apply sublist_take].
  - intros t n Hin. eapply elem_of_sublist in Hin; [| apply sublist_take].
    apply Helem in Hin as [-> Hin]. split; [done |]. by apply occurrences_pos in Hin.
  - intros i j a b Hij Ha Hb.
    assert ([a; b] `sublist_of` ranked) as Hab.
    { etrans; [by eapply lookup_lt_sublist | apply sublist_take]. }
    split; [exact (StronglySorted_sublist_pair _ ranked a b Hsorted Hab) |].
    intros Heq. apply Counter_order.
    change [a.1; b.1] with (fst <$> [a; b]). apply fmap_sublist.
    by apply sorted_by_count_stable.
  - intros t [t' n'] Ht Hout Hb.
    apply Counter_keys, list_elem_of_fmap in Ht as ([t0 n] & -> & Hin). simpl in *.
    fold counts in Hin. rewrite <- Hperm, <- (take_drop k ranked) in Hin.
    apply elem_of_app in Hin as [Hin | Hin].
    { destruct Hout. apply list_elem_of_fmap. by exists (t0, n). }
    rewrite <- (take_drop k ranked) in Hsorted.
    pose proof (StronglySorted_app_1_elem_of _ _ _ _ _ Hsorted Hb Hin) as Hle.
    assert ((t0, n) ∈ ranked) as [<- _]%Helem; [| done].
    eapply elem_of_sublist; [exact Hin | apply sublist_drop].
Qed.

(** The script's common words are the ranker's output on the tokens of
    the whole spreadsheet. *)
Lemma common_words_top_terms (U : UnicodeData) (k : nat) (df : list post) :
  common_words U k df =
  top_terms (normalize U (str_join (py " ") (post_content <$> df))) k.
Proof. reflexivity. Qed.

(** ** The inverted index *)

Lemma sorted_set_elem post_list d : d ∈ sorted_set post_list ↔ d ∈ post_list.
Proof.
  unfold sorted_set. by rewrite merge_sort_Permutation, elem_of_elements, elem_of_list_to_set.
Qed.

Lemma sorted_set_ascending post_list : StronglySorted lt (sorted_set post_list).
Proof.
  unfold sorted_set.
  set (ids := elements (list_to_set post_list : gset nat)).
  assert (NoDup (merge_sort le ids)) as Hnd
    by (rewrite merge_sort_Permutation; apply NoDup_elements).
  pose proof (StronglySorted_merge_sort le ids) as Hsorted.
  induction Hsorted as [| d rest _ IH Hall]; [constructor |].
  apply NoDup_cons in Hnd as [Hd Hnd]. constructor; [auto |].
  rewrite Forall_forall in Hall |- *. intros d' Hd'.
  assert (d ≠ d') by (by intros ->). specialize (Hall d' Hd'). lia.
Qed.


Section IndexerFacts.
Context (U : UnicodeData).
Implicit Types (m : gmap (list N) (list nat)) (w : list N).

Lemma index_word_lookup i m word w :
  index_word i m word !! w =
  if decide (w = word) then Some (default [] (m !! word) ++ [(i + 1)%nat]) else m !! w.
Proof.
  unfold index_word. destruct (decide (w = word)) as [-> | Hne].
  - destruct (m !! word) as [post_list |] eqn:Hm.
    + by rewrite lookup_alter_eq, Hm.
    + by rewrite lookup_alter_eq, lookup_insert_eq.
  - rewrite lookup_alter_ne by done.
    destruct (m !! word); [done |]. by rewrite lookup_insert_ne.
Qed.

(** After the inner loop, a word has the ids it had and id [i + 1]
    if it is one of the words of the post. *)
Lemma index_words_lookup i words m w post_list :
  foldl (index_word i) m words !! w = Some post_list →
  ∀ d, d ∈ post_list ↔ d ∈ default [] (m !! w) ∨ (d = (i + 1)%nat ∧ w ∈ words).
Proof.
  revert m. induction words as [| word words IH]; intros m; simpl.
  - intros -> d. simpl. split; [by left |]. intros [? | [_ ?%elem_of_nil]]; done.
  - intros Hl d. rewrite (IH _ Hl d), index_word_lookup, elem_of_cons.
    destruct (decide (w = word)) as [-> | Hne]; simpl.
    + rewrite elem_of_app, list_elem_of_singleton. intuition congruence.
    + intuition congruence.
Qed.

Lemma index_words_None i words m w :
  foldl (index_word i) m words !! w = None → m !! w = None.
Proof.
  revert m. induction words as [| word words IH]; intros m; simpl; [done |].
  intros Hl%IH. rewrite index_word_lookup in Hl. by destruct (decide (w = word)).
Qed.

Lemma index_words_Some i words m w :
  w ∈ words → is_Some (foldl (index_word i) m words !! w).
Proof.
  revert m. induction words as [| word words IH]; intros m; [by intros ?%elem_of_nil |].
  simpl. intros [-> | Hw]%elem_of_cons; [| by apply IH].
  destruct (foldl (index_word i) (index_word i m word) words !! word) eqn:Hl; [done |].
  apply index_words_None in Hl. rewrite index_word_lookup in Hl.
  by rewrite decide_True in Hl.
Qed.

(** After the outer loop from row [i] on, a word has the ids it had
    and the id of every remaining row that holds it. *)
Lemma index_posts_lookup i rows m w post_list :
  index_posts U i rows m !! w = Some post_list →
  ∀ d, d ∈ post_list ↔
       d ∈ default [] (m !! w) ∨
       ∃ j row, rows !! j = Some row ∧ d = (i + j + 1)%nat ∧
                w ∈ normalize U (post_content row).
Proof.
  revert i m. induction rows as [| row rows IH]; intros i m; simpl.
  - intros -> d. simpl. split; [by left |]. by intros [? | (j & row & ? & _)].
  - intros Hl d. rewrite (IH _ _ Hl d). fold (normalize U (post_content row)).
    split.
    + intros [Hd | (j & row' & Hj & -> & Hw)].
      * destruct (foldl (index_word i) m (normalize U (post_content row)) !! w)
          as [l |] eqn:Hw; [| by apply elem_of_nil in Hd].
        simpl in Hd. apply (index_words_lookup _ _ _ _ _ Hw) in Hd as [Hd | [-> Hin]].
        -- by left.
        -- right. exists 0%nat, row. split; [done |]. split; [lia | done].
      * right. exists (S j), row'. split; [done |]. split; [lia | done].
    + intros [Hd | (j & row' & Hj & -> & Hw)].
      * left. destruct (foldl (index_word i) m (normalize U (post_content row)) !! w)
          as [l |] eqn:Hw'.
        -- simpl. apply (index_words_lookup _ _ _ _ _ Hw'). by left.
        -- apply index_words_None in Hw'. rewrite Hw' in Hd. by apply elem_of_nil in Hd.
      * destruct j as [| j]; simpl in Hj.
        -- injection Hj as ->. left.
           destruct (foldl (index_word i) m (normalize U (post_content row')) !! w)
             as [l |] eqn:Hw'.
           ++ simpl. apply (index_words_lookup _ _ _ _ _ Hw'). right.
              split; [lia | done].
           ++ by apply (index_words_Some i _ m) in Hw as [l Hl']; rewrite Hl' in Hw'.
        -- right. exists j, row'. split; [done |]. split; [lia | done].
Qed.

(** The entry of the finished index for a word. *)
Lemma inverted_index_lookup df w post_list :
  index_posts U 0 df ∅ !! w = Some post_list →
  ∀ d, d ∈ post_list ↔
       ∃ i row, df !! i = Some row ∧ d = (i + 1)%nat ∧ w ∈ normalize U (post_content row).
Proof.
  intros Hl d. rewrite (index_posts_lookup _ _ _ _ _ Hl d), lookup_empty. simpl.
  split; [| by right]. intros [?%elem_of_nil | ?]; done.
Qed.

Lemma common_postings_elem k df w post_ids :
  (w, post_ids) ∈ common_postings U k df →
  ∃ n post_list, (w, n) ∈ common_words U k df ∧
                 index_posts U 0 df ∅ !! w = Some post_list ∧
                 post_ids = sorted_set post_list.
Proof.
  unfold common_postings. intros ([w' n] & Hin & Hsome)%list_elem_of_omap.
  destruct (index_posts U 0 df ∅ !! w') as [post_list |] eqn:Hl; [| done].
  injection Hsome as -> <-. by exists n, post_list.
Qed.
End IndexerFacts.

(** C1. In every row of the sheet the function writes, [posts] is the
    comma-joined decimal rendering of a list of ids that is strictly
    ascending, hence free of duplicates, and holds exactly the
    1-indexed numbers of the posts whose normalized title and body
    contain the row's word. *)
Theorem posting_lists_exact (U : UnicodeData) (k : nat) (df : list post) (r : word_post) :
  r ∈ word_post_data U k df →
  ∃ post_ids : list nat,
    posts r = str_join (py ",") (str_of_nat <$> post_ids) ∧
    (word r, post_ids) ∈ common_postings U k df ∧
    StronglySorted lt post_ids ∧
    ∀ d, d ∈ post_ids ↔
         ∃ i row, df !! i = Some row ∧ d = (i + 1)%nat ∧
                  word r ∈ normalize U (post_content row).
Proof.
  unfold word_post_data. intros ([w post_ids] & -> & Hin)%list_elem_of_fmap. simpl.
  exists post_ids. split; [done |]. split; [done |].
  apply common_postings_elem in Hin as (n & post_list & _ & Hl & ->).
  split; [apply sorted_set_ascending |].
  intros d. rewrite sorted_set_elem. by apply inverted_index_lookup.
Qed.


Lemma posting_lists_exact_witness :
  {| word := py "cats"; posts := py "1,3" |} ∈ word_post_data latin 15 cats_and_dogs ∧
  ∃ post_ids : list nat,
    py "1,3" = str_join (py ",") (str_of_nat <$> post_ids) ∧
    (py "cats", post_ids) ∈ common_postings latin 15 cats_and_dogs ∧
    StronglySorted lt post_ids ∧
    ∀ d, d ∈ post_ids ↔
         ∃ i row, cats_and_dogs !! i = Some row ∧ d = (i + 1)%nat ∧
                  py "cats" ∈ normalize latin (post_content row).
Proof.
  assert ({| word := py "cats"; posts := py "1,3" |} ∈ word_post_data latin 15 cats_and_dogs)
    as Hin by (vm_compute; apply list_elem_of_further, list_elem_of_here).
  split; [exact Hin |].
  exact (posting_lists_exact latin 15 cats_and_dogs _ Hin).
Defined.

(** C7, as the code has it.  On the three example posts the two most
    common words are funny (2) then cats (2): funny occurs twice as
    well and comes first in the text.  Their posting lists are [1,2]
    and [1,3]; dogs, with posting list [2,3], is the third word, and
    the script, which keeps fifteen words, writes all six. *)
Theorem cats_and_dogs_index :
  common_words latin 2 cats_and_dogs = [(py "funny", 2%nat); (py "cats", 2%nat)] ∧
  common_postings latin 2 cats_and_dogs =
    [(py "funny", [1; 2]%nat); (py "cats", [1; 3]%nat)] ∧
  common_postings latin 3 cats_and_dogs =
    [(py "funny", [1; 2]%nat); (py "cats", [1; 3]%nat); (py "dogs", [2; 3]%nat)] ∧
  build_inverse_index_with_locations latin cats_and_dogs =
    [ {| word := py "funny"; posts := py "1,2" |};
      {| word := py "cats"; posts := py "1,3" |};
      {| word := py "dogs"; posts := py "2,3" |};
      {| word := py "jumping"; posts := py "1" |};
      {| word := py "running"; posts := py "2" |};
      {| word := py "playing"; posts := py "3" |} ].
Proof. repeat split; vm_compute; reflexivity. Qed.

(** C7 as stated fails: with K = 2 the ranker does not return cats
    then dogs. *)
Lemma cats_and_dogs_top2_not_cats_dogs :
  ¬ (common_words latin 2 cats_and_dogs = [(py "cats", 2%nat); (py "dogs", 2%nat)] ∧
     common_postings latin 2 cats_and_dogs =
       [(py "cats", [1; 3]%nat); (py "dogs", [2; 3]%nat)]).
Proof. intros [Htop _]. vm_compute in Htop. discriminate. Qed.


(** ** TF-IDF *)

Lemma elem_of_concat {A} (x : A) (ls : list (list A)) :
  x ∈ concat ls ↔ ∃ l, l ∈ ls ∧ x ∈ l.
Proof.
  induction ls as [| l ls IH]; simpl.
  - split; [by intros ?%elem_of_nil | by intros (l & ?%elem_of_nil & _)].
  - rewrite elem_of_app, IH. split.
    + intros [Hx | (l' & Hl' & Hx)].
      * exists l. split; [apply list_elem_of_here | done].
      * exists l'. split; [by apply list_elem_of_further | done].
    + intros (l' & [-> | Hl']%elem_of_cons & Hx); [by left |].
      right. by exists l'.
Qed.

Lemma zip_seq_elem {A} (l : list A) (x : A) (j : nat) :
  (x, j) ∈ zip l (seq 0 (length l)) ↔ l !! j = Some x.
Proof.
  rewrite list_elem_of_lookup. split.
  - intros (i & (x' & j' & [= -> ->] & Hx & [-> _]%lookup_seq)%lookup_zip_with_Some).
    done.
  - intros Hj. exists j. apply lookup_zip_with_Some. exists x, j.
    split; [done |]. split; [done |]. apply lookup_seq.
    split; [done |]. by eapply lookup_lt_Some.
Qed.

Lemma vocabulary_lookup (terms : list (list N)) (t : list N) (j : nat) :
  NoDup terms →
  (list_to_map (zip terms (seq 0 (length terms))) : gmap (list N) nat) !! t = Some j ↔
  terms !! j = Some t.
Proof.
  intros Hnd. rewrite <- zip_seq_elem. symmetry. apply elem_of_list_to_map.
  rewrite fst_zip; [done | by rewrite length_seq].
Qed.

Section TfidfFacts.
Context (U : UnicodeData) {float : Type}.
Context (tfidf_weight : list (list nat) → nat → nat → float).
Context (np_sum : list float → float).

Lemma analyze_length doc t : t ∈ analyze U doc → (2 ≤ length t)%nat.
Proof. unfold analyze, findall_words2. by intros [? _]%list_elem_of_filter. Qed.

(** What a successful fit has learnt. *)
Lemma fit_transform_Ok docs v :
  fit_transform U tfidf_weight docs = Ok v →
  NoDup (feature_names v) ∧
  (∀ t, t ∈ feature_names v ↔ ∃ doc, doc ∈ docs ∧ t ∈ analyze U doc) ∧
  (∀ t j, vocabulary_ v !! t = Some j ↔ feature_names v !! j = Some t) ∧
  n_rows (tfidf_matrix v) = length docs ∧
  n_cols (tfidf_matrix v) = length (feature_names v).
Proof.
  unfold fit_transform.
  set (terms := merge_sort str_le (remove_dups (concat (analyze U <$> docs)))).
  assert (NoDup terms) as Hnd.
  { unfold terms. rewrite merge_sort_Permutation. apply NoDup_remove_dups. }
  assert (∀ t, t ∈ terms ↔ ∃ doc, doc ∈ docs ∧ t ∈ analyze U doc) as Helem.
  { intros t. unfold terms.
    rewrite merge_sort_Permutation, elem_of_remove_dups, elem_of_concat. split.
    - intros (l & (doc & -> & Hdoc)%list_elem_of_fmap & Ht). by exists doc.
    - intros (doc & Hdoc & Ht). exists (analyze U doc).
      split; [by apply list_elem_of_fmap_2 | done]. }
  clearbody terms. destruct terms as [| t0 terms']; [done |].
  set (ts := t0 :: terms') in *. intros [= <-].
  cbn [feature_names vocabulary_ tfidf_matrix n_rows n_cols].
  split; [done |]. split; [done |]. split; [| done].
  intros t j. by apply (vocabulary_lookup ts).
Qed.

(** Every term of the vocabulary has at least two characters. *)
Lemma feature_names_length docs v t :
  fit_transform U tfidf_weight docs = Ok v → t ∈ feature_names v → (2 ≤ length t)%nat.
Proof.
  intros (_ & Helem & _)%fit_transform_Ok (doc & _ & Ht)%Helem.
  by eapply analyze_length.
Qed.

(** The loop body never raises on a fitted vectorizer. *)
Lemma score_Ok docs v term :
  fit_transform U tfidf_weight docs = Ok v →
  (term ∈ feature_names v ∧
   ∃ j, feature_names v !! j = Some term ∧
        score np_sum v term =
        Ok (Score term (np_sum ((λ d, cell (tfidf_matrix v) d j) <$> seq 0 (length docs))))) ∨
  ((term ∉ feature_names v) ∧ score np_sum v term = Ok (NotFound term)).
Proof.
  intros (Hnd & Helem & Hvoc & Hrows & Hcols)%fit_transform_Ok. unfold score.
  destruct (decide (term ∈ feature_names v)) as [Hin | Hnin]; [left | by right].
  split; [done |].
  pose proof Hin as [j Hj]%list_elem_of_lookup. exists j. split; [done |].
  rewrite (proj2 (Hvoc term j) Hj). unfold column.
  rewrite decide_True, Hrows; [done |]. rewrite Hcols. by eapply lookup_lt_Some.
Qed.

End TfidfFacts.


(** ** Claims about TF-IDF *)

Section TfidfClaims.
Context (U : UnicodeData) {float : Type}.
Context (tfidf_weight : list (list nat) → nat → nat → float).
Context (np_sum : list float → float).

(** The result of the loop for one term. *)
Lemma score_result docs v term :
  fit_transform U tfidf_weight docs = Ok v →
  ∃ r, score np_sum v term = Ok r ∧
    (term ∈ feature_names v →
       ∃ j, feature_names v !! j = Some term ∧
            r = Score term (np_sum ((λ d, cell (tfidf_matrix v) d j) <$> seq 0 (length docs)))) ∧
    (term ∉ feature_names v → r = NotFound term).
Proof.
  intros Hfit.
  destruct (score_Ok U tfidf_weight np_sum docs v term Hfit)
    as [(Hin & j & Hj & ->) | (Hnin & ->)]; eexists; (split; [done |]); split; try done.
  intros _. by exists j.
Qed.

(** The loop over the query terms gives one result per term. *)
Lemma calculate_tfidf_results df query v :
  fit_transform U tfidf_weight (clean_text U <$> (post_content <$> df)) = Ok v →
  ∃ out, calculate_tfidf U tfidf_weight np_sum df query = Ok out ∧
         Forall2 (λ term r, score np_sum v term = Ok r) (normalize U query) out.
Proof.
  intros Hfit. unfold calculate_tfidf. rewrite Hfit.
  fold (normalize U query). generalize (normalize U query). intros terms.
  induction terms as [| term terms (out & Hout & Hall)].
  - by exists [].
  - destruct (score_result _ v term Hfit) as (r & Hr & _).
    exists (r :: out). rewrite fmap_cons. cbn [collect]. rewrite Hr, Hout.
    split; [done | by constructor].
Qed.
End TfidfClaims.

(** C3. Once the matrix is built, the loop of [calculate_tfidf] gives
    one result per query term, in order: for a term of the matrix's
    vocabulary, the sum over all documents of the weights in the
    term's column; for any other term the separate result
    [NotFound], which is no score at all. *)
Theorem score_found_or_not_found (U : UnicodeData) {float : Type}
    (tfidf_weight : list (list nat) → nat → nat → float)
    (np_sum : list float → float)
    (df : list post) (query : list N) (v : fitted) :
  fit_transform U tfidf_weight (clean_text U <$> (post_content <$> df)) = Ok v →
  ∃ out,
    calculate_tfidf U tfidf_weight np_sum df query = Ok out ∧
    length out = length (normalize U query) ∧
    ∀ i term, normalize U query !! i = Some term →
      (term ∈ feature_names v →
         ∃ j, feature_names v !! j = Some term ∧
              out !! i = Some (Score term
                (np_sum ((λ d, cell (tfidf_matrix v) d j) <$> seq 0 (length df))))) ∧
      (term ∉ feature_names v →
         out !! i = Some (NotFound term) ∧ ∀ x, out !! i ≠ Some (Score term x)).
Proof.
  intros Hfit.
  destruct (calculate_tfidf_results U tfidf_weight np_sum df query v Hfit)
    as (out & Hout & Hall).
  exists out. split; [done |]. split; [symmetry; by eapply Forall2_length |].
  intros i term Hi.
  destruct (Forall2_lookup_l _ _ _ _ _ Hall Hi) as (r & Hr & Hscore).
  destruct (score_result U tfidf_weight np_sum _ v term Hfit) as (r' & Hr' & Hfound & Hnot).
  rewrite Hscore in Hr'. injection Hr' as <-. split.
  - intros (j & Hj & ->)%Hfound. exists j. split; [done |].
    by rewrite Hr, !length_fmap.
  - intros ->%Hnot. split; [done |]. intros x. by rewrite Hr.
Qed.

Lemma score_found_or_not_found_witness :
  ∃ v,
    fit_transform latin count_weight (clean_text latin <$> (post_content <$> cats_and_dogs))
    = Ok v ∧
    ∃ out,
      calculate_tfidf latin count_weight nat_sum cats_and_dogs (py "Funny cats, birds") = Ok out ∧
      length out = length (normalize latin (py "Funny cats, birds")) ∧
      ∀ i term, normalize latin (py "Funny cats, birds") !! i = Some term →
        (term ∈ feature_names v →
           ∃ j, feature_names v !! j = Some term ∧
                out !! i = Some (Score term
                  (nat_sum ((λ d, cell (tfidf_matrix v) d j) <$> seq 0 (length cats_and_dogs))))) ∧
        (term ∉ feature_names v →
           out !! i = Some (NotFound term) ∧ ∀ x, out !! i ≠ Some (Score term x)).
Proof.
  eexists. split; [vm_compute; reflexivity |].
  apply (score_found_or_not_found latin count_weight nat_sum cats_and_dogs).
  vm_compute. reflexivity.
Defined.

(** C9. A query term of a single character is reported as not found
    whatever the posts hold: the vectorizer's token pattern keeps
    tokens of two or more word characters only, so no term of the
    vocabulary is one character long. *)
Theorem single_character_not_found (U : UnicodeData) {float : Type}
    (tfidf_weight : list (list nat) → nat → nat → float)
    (np_sum : list float → float)
    (df : list post) (query : list N) (out : list query_result) :
  calculate_tfidf U tfidf_weight np_sum df query = Ok out →
  ∀ i term, normalize U query !! i = Some term → length term = 1%nat →
    out !! i = Some (NotFound term).
Proof.
  intros Hout i term Hi Hlen.
  destruct (fit_transform U tfidf_weight (clean_text U <$> (post_content <$> df)))
    as [v | e] eqn:Hfit.
  2: { unfold calculate_tfidf in Hout. by rewrite Hfit in Hout. }
  destruct (calculate_tfidf_results U tfidf_weight np_sum df query v Hfit)
    as (out' & Hout' & Hall).
  rewrite Hout in Hout'. injection Hout' as <-.
  destruct (Forall2_lookup_l _ _ _ _ _ Hall Hi) as (r & -> & Hscore).
  destruct (score_Ok U tfidf_weight np_sum _ v term Hfit)
    as [(Hin & _) | (_ & Hnot)]; [| by rewrite Hnot in Hscore; injection Hscore as ->].
  pose proof (feature_names_length U tfidf_weight _ v term Hfit Hin). lia.
Qed.

Lemma single_character_not_found_witness :
  py "b" ∈ normalize latin (post_content b_cats) ∧
  calculate_tfidf latin count_weight nat_sum [b_cats] (py "b cats")
  = Ok [NotFound (py "b"); Score (py "cats") 1%nat] ∧
  ∀ i term, normalize latin (py "b cats") !! i = Some term → length term = 1%nat →
    [NotFound (py "b"); Score (py "cats") 1%nat] !! i = Some (NotFound term).
Proof.
  assert (calculate_tfidf latin count_weight nat_sum [b_cats] (py "b cats")
          = Ok [NotFound (py "b"); Score (py "cats") 1%nat]) as Hout
    by (vm_compute; reflexivity).
  split; [vm_compute; apply list_elem_of_here |]. split; [exact Hout |].
  exact (single_character_not_found latin count_weight nat_sum [b_cats] (py "b cats") _ Hout).
Defined.


(** On cleaned text that lower-cases cleanly the vectorizer finds the
    words of the text again, less those of one character. *)
Lemma analyze_clean_text (U : UnicodeData) `{!PythonUnicode U} (s : list N) :
  lowercases_cleanly U s →
  analyze U (clean_text U s) = filter (λ w, (2 ≤ length w)%nat) (normalize U s).
Proof.
  intros Hs. unfold analyze, findall_words2.
  rewrite str_lower_clean_text, normalize_words, clean_text_join by done.
  f_equal. apply (runs_join _ 32); [by apply space_not_word |].
  apply Forall_forall. intros tok Htok.
  pose proof (words_of_word_chars U s tok Hs Htok) as Hword.
  apply words_of_elem in Htok as (_ & Hne & _).
  split; [done |]. eapply Forall_impl; [exact Hword |]. simpl.
  intros c Hc. by apply Is_true_true.
Qed.

(** C4, as the code has it.  When every post lower-cases cleanly, as
    ASCII text does, the columns of the matrix are exactly the tokens
    of two or more characters of the normalized posts; no top-K
    selection is applied. *)
Theorem vocabulary_is_long_tokens (U : UnicodeData) `{!PythonUnicode U} {float : Type}
    (tfidf_weight : list (list nat) → nat → nat → float)
    (df : list post) (v : fitted) :
  Forall (λ row, lowercases_cleanly U (post_content row)) df →
  fit_transform U tfidf_weight (clean_text U <$> (post_content <$> df)) = Ok v →
  ∀ t, t ∈ feature_names v ↔
       (2 ≤ length t)%nat ∧ ∃ row, row ∈ df ∧ t ∈ normalize U (post_content row).
Proof.
  intros Hdf (_ & Helem & _)%fit_transform_Ok t. rewrite Helem.
  rewrite Forall_forall in Hdf. split.
  - intros (doc & (s & -> & (row & -> & Hrow)%list_elem_of_fmap)%list_elem_of_fmap & Ht).
    rewrite analyze_clean_text in Ht by auto.
    apply list_elem_of_filter in Ht as [Hlen Ht]. split; [done |]. by exists row.
  - intros (Hlen & row & Hrow & Ht). exists (clean_text U (post_content row)). split.
    + by apply list_elem_of_fmap_2, list_elem_of_fmap_2.
    + rewrite analyze_clean_text by auto. by apply list_elem_of_filter.
Qed.

Lemma vocabulary_is_long_tokens_witness :
  ∃ v,
    Forall (λ row, lowercases_cleanly latin (post_content row)) [b_cats] ∧
    fit_transform latin count_weight (clean_text latin <$> (post_content <$> [b_cats])) = Ok v ∧
    ∀ t, t ∈ feature_names v ↔
         (2 ≤ length t)%nat ∧ ∃ row, row ∈ [b_cats] ∧ t ∈ normalize latin (post_content row).
Proof.
  assert (Forall (λ row, lowercases_cleanly latin (post_content row)) [b_cats]) as Hdf
    by (apply Forall_singleton, (ascii_lowercases_cleanly latin), (bool_decide_unpack _);
        vm_compute; exact I).
  eexists. split; [exact Hdf |]. split; [vm_compute; reflexivity |].
  apply (@vocabulary_is_long_tokens latin latin_python nat count_weight [b_cats] _ Hdf).
  vm_compute. reflexivity.
Defined.

(** C4 as stated fails: the post "b cats dogs" has the token "b",
    which is no column of the matrix built from it. *)
Lemma one_letter_token_is_no_column :
  ¬ (∀ v, fit_transform latin count_weight (clean_text latin <$> (post_content <$> [b_cats])) = Ok v →
          ∀ t, (∃ row, row ∈ [b_cats] ∧ t ∈ normalize latin (post_content row)) →
               t ∈ feature_names v).
Proof.
  intros Hclaim.
  assert (∃ v, fit_transform latin count_weight
                 (clean_text latin <$> (post_content <$> [b_cats])) = Ok v ∧
               feature_names v = [py "cats"; py "dogs"]) as (v & Hfit & Hnames)
    by (eexists; split; vm_compute; reflexivity).
  specialize (Hclaim v Hfit (py "b")). rewrite Hnames in Hclaim.
  assert (py "b" ∈ [py "cats"; py "dogs"]) as Hin.
  { apply Hclaim. exists b_cats. split; [apply list_elem_of_here |].
    vm_compute. apply list_elem_of_here. }
  apply elem_of_cons in Hin as [Hin | Hin]; [by vm_compute in Hin |].
  apply list_elem_of_singleton in Hin. by vm_compute in Hin.
Qed.

(** ** The empty corpus *)

(** C5, as the code has it.  With no posts the ranker returns no
    term and the index no row, neither raising; fitting the
    vectorizer raises [ValueError] for the empty vocabulary, which
    [calculate_tfidf] raises again: no matrix is built and no query
    term is scored. *)
Theorem empty_corpus (U : UnicodeData) (k : nat) :
  top_terms [] k = [] ∧
  common_words U k [] = [] ∧
  common_postings U k [] = [] ∧
  build_inverse_index_with_locations U [] = [] ∧
  ∀ (float : Type) (tfidf_weight : list (list nat) → nat → nat → float)
    (np_sum : list float → float) (query : list N),
    fit_transform U tfidf_weight [] =
      Raise (ValueError "empty vocabulary; perhaps the documents only contain stop words") ∧
    calculate_tfidf U tfidf_weight np_sum [] query =
      Raise (ValueError "empty vocabulary; perhaps the documents only contain stop words").
Proof.
  assert (∀ n, take n ([] : list (list N * nat)) = []) as Htake by by intros [].
  assert (common_words U k [] = []) as Hcommon by apply Htake.
  split; [apply Htake |]. split; [exact Hcommon |].
  split; [unfold common_postings; by rewrite Hcommon |]. split.
  - unfold build_inverse_index_with_locations, word_post_data, common_postings.
    by rewrite (Htake 15%nat : common_words U 15 [] = []).
  - intros float tfidf_weight np_sum query. split; reflexivity.
Qed.

(** C5 as stated fails: on the empty corpus [calculate_tfidf] raises
    instead of reporting each query term as not found. *)
Lemma tfidf_raises_without_posts :
  ¬ ∃ out, calculate_tfidf latin count_weight nat_sum [] (py "funny cats") = Ok out.
Proof. intros [out Hout]. vm_compute in Hout. discriminate. Qed.


(** * Further properties *)

(** ** Text joined by spaces *)

Lemma runs_from_app_sep (keep : N → bool) word a c b :
  keep c = false →
  runs_from keep word (a ++ c :: b) = runs_from keep word a ++ runs keep b.
Proof.
  intros Hc. revert word. induction a as [| x a IH]; intros word; simpl.
  - by rewrite Hc.
  - destruct (keep x); [apply IH |]. by rewrite IH, app_assoc.
Qed.

Section SpaceFacts.
Context (U : UnicodeData) `{!PythonUnicode U} (Hsp : space_uncased U).

Lemma skip_case_ignorable_space x y :
skip_case_ignorable U (x ++ 32 :: y) =
match skip_case_ignorable U x with Some c => Some c | None => Some 32 end.
Proof.
destruct Hsp as [_ Hign]. induction x as [| c x IH]; simpl; [by rewrite Hign |].
by destruct (iscase_ignorable U c).
Qed.

(** What lies beyond a space does not matter to a sigma. *)
Lemma final_sigma_context_before x y after :
in_final_sigma_context U (x ++ 32 :: y) after = in_final_sigma_context U x after.
Proof.
unfold in_final_sigma_context. rewrite skip_case_ignorable_space.
destruct (skip_case_ignorable U x); [done |]. by destruct Hsp as [-> _].
Qed.

Lemma final_sigma_context_after before x y :
in_final_sigma_context U before (x ++ 32 :: y) = in_final_sigma_context U before x.
Proof.
unfold in_final_sigma_context. rewrite skip_case_ignorable_space.
destruct (skip_case_ignorable U before); [| done].
destruct (skip_case_ignorable U x); [done |]. by destruct Hsp as [-> _].
Qed.

Lemma lower_from_before_space x y s : lower_from U (x ++ 32 :: y) s = lower_from U x s.
Proof.
revert x. induction s as [| c s IH]; intros x; simpl; [done |].
rewrite final_sigma_context_before. f_equal. apply (IH (c :: x)).
Qed.

Lemma lower_from_app_space before a b :
lower_from U before (a ++ 32 :: b) = lower_from U before a ++ 32 :: lower_from U [] b.
Proof.
revert before. induction a as [| c a IH]; intros before; simpl.
- rewrite uni_ascii_lower by done. simpl.
  f_equal. apply (lower_from_before_space []).
- rewrite final_sigma_context_after, IH. by rewrite <- app_assoc.
Qed.

Lemma words_of_app_space a b : words_of U (a ++ 32 :: b) = words_of U a ++ words_of U b.
Proof.
unfold words_of, re_sub_nonword_nonspace, str_lower, str_split, runs.
rewrite filter_app, filter_cons, decide_True.
- rewrite lower_from_app_space, runs_from_app_sep, filter_app; [done |].
  by rewrite space_is_space.
- unfold re_space. by rewrite space_is_space, orb_true_r.
Qed.

Lemma words_of_str_join texts :
words_of U (str_join (py " ") texts) = concat (words_of U <$> texts).
Proof.
induction texts as [| t texts IH]; [done |].
destruct texts as [| t' texts].
- simpl. by rewrite app_nil_r.
- change (str_join (py " ") (t :: t' :: texts))
    with (t ++ 32 :: str_join (py " ") (t' :: texts)).
  by rewrite words_of_app_space, IH.
Qed.

Lemma normalize_str_join texts :
normalize U (str_join (py " ") texts) = concat (normalize U <$> texts).
Proof.
rewrite normalize_words, words_of_str_join by done. f_equal.
apply list_fmap_ext. intros _ t _. by rewrite normalize_words.
Qed.
End SpaceFacts.


(** ** The inverted index, entry by entry *)

Lemma appended_appended entry a b : appended (appended entry a) b = appended entry (a ++ b).
Proof.
  destruct a as [| x a]; [done |]. destruct b as [| y b]; simpl.
  - by rewrite app_nil_r.
  - by rewrite <- app_assoc.
Qed.

Lemma occurrences_cons w x stream :
  occurrences w (x :: stream) =
  ((if decide (w = x) then 1 else 0) + occurrences w stream)%nat.
Proof. unfold occurrences. rewrite filter_cons. by destruct (decide (w = x)). Qed.

Lemma occurrences_app w s1 s2 :
  occurrences w (s1 ++ s2) = (occurrences w s1 + occurrences w s2)%nat.
Proof. unfold occurrences. by rewrite filter_app, length_app. Qed.

Lemma occurrences_zero w stream : occurrences w stream = 0%nat ↔ w ∉ stream.
Proof. rewrite occurrences_pos. lia. Qed.

Lemma most_common_elem n counts item : item ∈ most_common n counts → item ∈ counts.
Proof.
  unfold most_common. intros Hin.
  rewrite <- (sorted_by_count_Permutation counts).
  eapply elem_of_sublist; [exact Hin | apply sublist_take].
Qed.

Lemma most_common_length n stream :
  length (most_common n (Counter stream)) = (n `min` length (remove_dups stream))%nat.
Proof.
  unfold most_common. rewrite length_take. f_equal.
  rewrite <- (length_fmap fst), sorted_by_count_Permutation.
  apply Permutation_length, NoDup_Permutation.
  - apply Counter_NoDup.
  - apply NoDup_remove_dups.
  - intros t. by rewrite Counter_keys, elem_of_remove_dups.
Qed.

Lemma most_common_NoDup n stream : NoDup (most_common n (Counter stream)).*1.
Proof.
  unfold most_common. rewrite fmap_take.
  eapply sublist_NoDup; [| apply sublist_take].
  rewrite sorted_by_count_Permutation. apply Counter_NoDup.
Qed.

Lemma omap_all_Some {A B} (f : A → option B) (g : A → B) (l : list A) :
  (∀ x, x ∈ l → f x = Some (g x)) → omap f l = g <$> l.
Proof.
  induction l as [| x l IH]; intros Hf; [done |].
  cbn [omap list_omap]. rewrite (Hf x) by apply list_elem_of_here.
  rewrite fmap_cons. f_equal. apply IH. intros y Hy. by apply Hf, list_elem_of_further.
Qed.

Lemma sorted_set_NoDup post_list : NoDup (sorted_set post_list).
Proof. unfold sorted_set. rewrite merge_sort_Permutation. apply NoDup_elements. Qed.

Lemma sorted_set_length post_list : (length (sorted_set post_list) ≤ length post_list)%nat.
Proof.
  apply submseteq_length, NoDup_submseteq; [apply sorted_set_NoDup |].
  intros d. by rewrite sorted_set_elem.
Qed.

Section IndexEntries.
Context (U : UnicodeData).
Implicit Types (m : gmap (list N) (list nat)) (w : list N).

Lemma index_word_appended i m word w :
index_word i m word !! w =
appended (m !! w) (replicate (if decide (w = word) then 1 else 0) (i + 1)%nat).
Proof. rewrite index_word_lookup. by destruct (decide (w = word)) as [-> |]. Qed.

Lemma index_words_exact i words m w :
foldl (index_word i) m words !! w =
appended (m !! w) (replicate (occurrences w words) (i + 1)%nat).
Proof.
revert m. induction words as [| word words IH]; intros m; [done |].
cbn [foldl]. rewrite IH, index_word_appended, appended_appended.
by rewrite occurrences_cons, replicate_add.
Qed.

Lemma index_posts_exact i rows m w :
index_posts U i rows m !! w = appended (m !! w) (occurrence_ids U i rows w).
Proof.
revert i m. induction rows as [| row rows IH]; intros i m; [done |].
cbn [index_posts occurrence_ids]. fold (normalize U (post_content row)).
by rewrite IH, index_words_exact, appended_appended.
Qed.

Lemma occurrence_ids_length i rows w :
length (occurrence_ids U i rows w) =
occurrences w (concat (normalize U <$> (post_content <$> rows))).
Proof.
revert i. induction rows as [| row rows IH]; intros i; [done |].
cbn [occurrence_ids]. rewrite !fmap_cons. cbn [concat].
by rewrite length_app, length_replicate, occurrences_app, IH.
Qed.

Lemma occurrence_ids_nil df w :
occurrence_ids U 0 df w = [] ↔ ∀ row, row ∈ df → w ∉ normalize U (post_content row).
Proof.
rewrite <- length_zero_iff_nil, occurrence_ids_length, occurrences_zero, elem_of_concat.
split.
- intros Hno row Hrow Hw. apply Hno. exists (normalize U (post_content row)).
  split; [| done]. by apply list_elem_of_fmap_2, list_elem_of_fmap_2.
- intros Hno (l & (s & -> & (row & -> & Hrow)%list_elem_of_fmap)%list_elem_of_fmap & Hw).
  by eapply Hno.
Qed.
Lemma occurrence_ids_indexed df w :
occurrence_ids U 0 df w ≠ [] →
index_posts U 0 df ∅ !! w = Some (occurrence_ids U 0 df w).
Proof.
intros Hids. rewrite index_posts_exact, lookup_empty.
by destruct (occurrence_ids U 0 df w).
Qed.
End IndexEntries.

(** X1. The entry of the inverted index for a word holds the id of
    every post once for each occurrence of the word in it, in the
    order of the posts; a word that occurs in no post has no entry. *)
Theorem inverted_index_exact (U : UnicodeData) (df : list post) (w : list N) :
  ((∃ row, row ∈ df ∧ w ∈ normalize U (post_content row)) →
     index_posts U 0 df ∅ !! w = Some (occurrence_ids U 0 df w)) ∧
  ((∀ row, row ∈ df → w ∉ normalize U (post_content row)) →
     index_posts U 0 df ∅ !! w = None).
Proof.
  split.
  - intros (row & Hrow & Hw). apply occurrence_ids_indexed. intros Hids.
    by destruct (proj1 (occurrence_ids_nil U df w) Hids row Hrow).
  - intros Hno. rewrite index_posts_exact, lookup_empty.
    by rewrite (proj2 (occurrence_ids_nil U df w) Hno).
Qed.


(** ** The index and the common words together *)

(** X2. The tokens of two texts joined by a space are the tokens of
    the first followed by the tokens of the second: the title never
    merges with the body, nor a post with the next. *)
Theorem normalize_joined_by_space (U : UnicodeData) `{!PythonUnicode U} (a b : list N) :
  space_uncased U →
  normalize U (a ++ py " " ++ b) = normalize U a ++ normalize U b.
Proof.
  intros Hsp. rewrite !normalize_words by done.
  exact (words_of_app_space U Hsp a b).
Qed.

Lemma latin_space_uncased : space_uncased latin.
Proof. split; reflexivity. Qed.

Lemma normalize_joined_by_space_witness :
  space_uncased latin ∧
  normalize latin (py "Funny CATS!" ++ py " " ++ py "and the dog") =
  normalize latin (py "Funny CATS!") ++ normalize latin (py "and the dog").
Proof.
  split; [exact latin_space_uncased |].
  exact (@normalize_joined_by_space latin latin_python _ _ latin_space_uncased).
Defined.

(** X3. The words counted for the whole spreadsheet are the words of
    its posts, post after post: each title's words, then the body's. *)
Theorem whole_text_words (U : UnicodeData) `{!PythonUnicode U} (df : list post) :
  space_uncased U →
  normalize U (str_join (py " ") (post_content <$> df)) =
  concat ((λ row, normalize U (Title row) ++ normalize U (Body row)) <$> df).
Proof.
  intros Hsp. rewrite normalize_str_join by done. f_equal.
  rewrite <- list_fmap_compose. apply list_fmap_ext. intros _ row _. simpl.
  rewrite !normalize_words by done. exact (words_of_app_space U Hsp _ _).
Qed.

Lemma whole_text_words_witness :
  space_uncased latin ∧
  normalize latin (str_join (py " ") (post_content <$> cats_and_dogs)) =
  concat ((λ row, normalize latin (Title row) ++ normalize latin (Body row)) <$> cats_and_dogs).
Proof.
  split; [exact latin_space_uncased |].
  exact (@whole_text_words latin latin_python cats_and_dogs latin_space_uncased).
Defined.

Section CommonWordsFacts.
Context (U : UnicodeData) `{!PythonUnicode U} (Hsp : space_uncased U).

Lemma all_text_words df :
normalize U (str_join (py " ") (post_content <$> df)) =
concat (normalize U <$> (post_content <$> df)).
Proof. by apply normalize_str_join. Qed.

(** A common word occurs in some post, as often as it was counted. *)
Lemma common_words_elem k df w n :
(w, n) ∈ common_words U k df →
n = length (occurrence_ids U 0 df w) ∧
∃ row, row ∈ df ∧ w ∈ normalize U (post_content row).
Proof.
unfold common_words. fold (normalize U (str_join (py " ") (post_content <$> df))).
intros [-> Hw]%most_common_elem%Counter_elem. rewrite all_text_words in Hw |- *.
split; [by rewrite occurrence_ids_length |].
apply elem_of_concat in Hw
  as (l & (s & -> & (row & -> & Hrow)%list_elem_of_fmap)%list_elem_of_fmap & Hw).
by exists row.
Qed.

Lemma common_postings_all k df :
common_postings U k df =
(λ item, (item.1, sorted_set (occurrence_ids U 0 df item.1))) <$> common_words U k df.
Proof.
unfold common_postings. apply omap_all_Some.
intros [w n] (_ & row & Hrow & Hw)%common_words_elem. simpl.
rewrite occurrence_ids_indexed; [done |]. intros Hids.
by destruct (proj1 (occurrence_ids_nil U df w) Hids row Hrow).
Qed.
End CommonWordsFacts.

(** X4. The test [if word in inverted_index] never fails: the sheet has
    one row for each of the most common words, in their order, so no
    word twice and [min(k, number of distinct words)] rows in all. *)
Theorem every_common_word_indexed (U : UnicodeData) `{!PythonUnicode U}
    (k : nat) (df : list post) :
  space_uncased U →
  word <$> word_post_data U k df = (common_words U k df).*1 ∧
  NoDup (word <$> word_post_data U k df) ∧
  length (word_post_data U k df) =
    (k `min` length (remove_dups (concat (normalize U <$> (post_content <$> df)))))%nat.
Proof.
  intros Hsp.
  assert (word <$> word_post_data U k df = (common_words U k df).*1) as Hwords.
  { unfold word_post_data. rewrite common_postings_all by done.
    rewrite <- !list_fmap_compose. by apply list_fmap_ext. }
  split; [done |]. split.
  - rewrite Hwords. apply most_common_NoDup.
  - rewrite <- (length_fmap word), Hwords, length_fmap.
    unfold common_words. fold (normalize U (str_join (py " ") (post_content <$> df))).
    by rewrite most_common_length, all_text_words.
Qed.

Lemma every_common_word_indexed_witness :
  space_uncased latin ∧
  word <$> word_post_data latin 2 cats_and_dogs = (common_words latin 2 cats_and_dogs).*1 ∧
  NoDup (word <$> word_post_data latin 2 cats_and_dogs) ∧
  length (word_post_data latin 2 cats_and_dogs) =
    (2 `min` length (remove_dups (concat (normalize latin <$> (post_content <$> cats_and_dogs)))))%nat.
Proof.
  split; [exact latin_space_uncased |].
  exact (@every_common_word_indexed latin latin_python 2 cats_and_dogs latin_space_uncased).
Defined.

(** X5. For a common word counted [n] times, the index entry holds
    [n] ids, and its posting list, the entry without duplicates, has
    at least one id, at most [n] and at most one for each post. *)
Theorem frequency_bounds_postings (U : UnicodeData) `{!PythonUnicode U}
    (k : nat) (df : list post) (w : list N) (n : nat) :
  space_uncased U →
  (w, n) ∈ common_words U k df →
  ∃ post_list,
    index_posts U 0 df ∅ !! w = Some post_list ∧
    length post_list = n ∧
    (w, sorted_set post_list) ∈ common_postings U k df ∧
    (1 ≤ length (sorted_set post_list) ≤ n)%nat ∧
    (length (sorted_set post_list) ≤ length df)%nat.
Proof.
  intros Hsp Hin.
  pose proof (common_words_elem U Hsp k df w n Hin) as (Hn & row & Hrow & Hw).
  set (post_list := occurrence_ids U 0 df w) in *.
  assert (post_list ≠ []) as Hne.
  { intros Hids. by destruct (proj1 (occurrence_ids_nil U df w) Hids row Hrow). }
  assert (index_posts U 0 df ∅ !! w = Some post_list) as Hl
    by by apply occurrence_ids_indexed.
  exists post_list. split; [done |]. split; [done |]. split; [| split].
  - rewrite common_postings_all by done.
    apply list_elem_of_fmap. by exists (w, n).
  - split; [| rewrite Hn; apply sorted_set_length].
    destruct post_list as [| d ids] eqn:Hids; [done |].
    assert (d ∈ sorted_set (d :: ids)) as Hd
      by (apply sorted_set_elem, list_elem_of_here).
    destruct (sorted_set (d :: ids)); [by apply elem_of_nil in Hd | simpl; lia].
  - rewrite <- (length_seq (length df) 1).
    apply submseteq_length, NoDup_submseteq; [apply sorted_set_NoDup |].
    intros d Hd. apply (proj1 (sorted_set_elem _ _)) in Hd.
    apply (proj1 (inverted_index_lookup U df w post_list Hl d)) in Hd
      as (i & row' & Hi & -> & _).
    apply elem_of_seq. apply lookup_lt_Some in Hi. lia.
Qed.

Lemma frequency_bounds_postings_witness :
  space_uncased latin ∧
  (py "cats", 2%nat) ∈ common_words latin 15 cats_and_dogs ∧
  ∃ post_list,
    index_posts latin 0 cats_and_dogs ∅ !! py "cats" = Some post_list ∧
    length post_list = 2%nat ∧
    (py "cats", sorted_set post_list) ∈ common_postings latin 15 cats_and_dogs ∧
    (1 ≤ length (sorted_set post_list) ≤ 2)%nat ∧
    (length (sorted_set post_list) ≤ length cats_and_dogs)%nat.
Proof.
  assert ((py "cats", 2%nat) ∈ common_words latin 15 cats_and_dogs) as Hin
    by (vm_compute; apply list_elem_of_further, list_elem_of_here).
  split; [exact latin_space_uncased |]. split; [exact Hin |].
  exact (@frequency_bounds_postings latin latin_python 15 cats_and_dogs _ _
           latin_space_uncased Hin).
Defined.


(** ** The counter *)

Lemma counter_add_total t counts :
  sum_list_with snd (counter_add t counts) = S (sum_list_with snd counts).
Proof.
  induction counts as [| [key n] rest IH]; [done |].
  cbn [counter_add]. destruct (decide (key = t)); simpl; [done |]. rewrite IH. lia.
Qed.

Lemma Counter_length stream : length (Counter stream) = length (remove_dups stream).
Proof.
  rewrite <- (length_fmap fst). apply Permutation_length, NoDup_Permutation.
  - apply Counter_NoDup.
  - apply NoDup_remove_dups.
  - intros t. by rewrite Counter_keys, elem_of_remove_dups.
Qed.

(** X6. The counter counts every token once: its counts add up to
    the length of the stream.  The counts of the [k] most common terms
    add up to no more, and to as much when [k] covers all distinct
    terms. *)
Theorem counts_add_up (stream : list (list N)) (k : nat) :
  sum_list_with snd (Counter stream) = length stream ∧
  (sum_list_with snd (top_terms stream k) ≤ length stream)%nat ∧
  ((length (remove_dups stream) ≤ k)%nat →
     sum_list_with snd (top_terms stream k) = length stream).
Proof.
  assert (sum_list_with snd (Counter stream) = length stream) as Htotal.
  { induction stream as [| t stream IH] using rev_ind; [done |].
    rewrite Counter_snoc, counter_add_total, IH, length_app. simpl. lia. }
  assert (sum_list_with snd (sorted_by_count (Counter stream)) = length stream) as Hsorted
    by by rewrite sorted_by_count_Permutation.
  split; [done |]. unfold top_terms, most_common.
  set (ranked := sorted_by_count (Counter stream)) in *.
  assert (sum_list_with snd (take k ranked) + sum_list_with snd (drop k ranked)
          = length stream)%nat as Hsplit
    by by rewrite <- sum_list_with_app, take_drop.
  split; [lia |]. intros Hk. rewrite take_ge; [done |].
  unfold ranked. rewrite sorted_by_count_Permutation, Counter_length. lia.
Qed.

(** ** More words, more rows *)

Lemma omap_prefix {A B} (f : A → option B) (l1 l2 : list A) :
  l1 `prefix_of` l2 → omap f l1 `prefix_of` omap f l2.
Proof. intros [rest ->]. rewrite omap_app. by eexists. Qed.

Lemma fmap_prefix_of {A B} (f : A → B) (l1 l2 : list A) :
  l1 `prefix_of` l2 → f <$> l1 `prefix_of` f <$> l2.
Proof. intros [rest ->]. rewrite fmap_app. by eexists. Qed.

(** X7. Asking for more words only adds rows at the end: the sheet
    for [k] words is the beginning of the sheet for any [k' ≥ k]. *)
Theorem more_words_more_rows (U : UnicodeData) (k k' : nat) (df : list post) :
  (k ≤ k')%nat → word_post_data U k df `prefix_of` word_post_data U k' df.
Proof.
  intros Hk. unfold word_post_data, common_postings.
  apply fmap_prefix_of, omap_prefix. unfold common_words, most_common.
  rewrite <- (Nat.min_l k k' Hk), <- take_take. apply prefix_take.
Qed.

Lemma more_words_more_rows_witness :
  (2 ≤ 15)%nat ∧ word_post_data latin 2 cats_and_dogs `prefix_of` word_post_data latin 15 cats_and_dogs.
Proof. split; [lia |]. apply (more_words_more_rows latin 2 15 cats_and_dogs). lia. Defined.


(** ** The vectorizer *)

Lemma str_le_total_bool a b : str_le a b = true ∨ str_le b a = true.
Proof.
  revert b. induction a as [| x a IH]; intros [| y b]; simpl; auto.
  destruct (N.ltb_spec x y), (N.ltb_spec y x); auto; lia.
Qed.

Lemma str_le_trans_bool a b c : str_le a b = true → str_le b c = true → str_le a c = true.
Proof.
  revert b c. induction a as [| x a IH]; intros [| y b] [| z c]; simpl; try done.
  destruct (N.ltb_spec x y), (N.ltb_spec y x), (N.ltb_spec y z), (N.ltb_spec z y),
    (N.ltb_spec x z), (N.ltb_spec z x); try done; try lia.
  apply IH.
Qed.

#[local] Instance str_le_total : Total (λ a b : list N, Is_true (str_le a b)).
Proof. intros a b. rewrite !Is_true_true. apply str_le_total_bool. Qed.

#[local] Instance str_le_trans : Transitive (λ a b : list N, Is_true (str_le a b)).
Proof. intros a b c. rewrite !Is_true_true. apply str_le_trans_bool. Qed.


Section VectorizerFacts.
Context (U : UnicodeData) {float : Type}.
Context (tfidf_weight : list (list nat) → nat → nat → float).
Context (np_sum : list float → float).


Lemma feature_names_sorted docs v :
fit_transform U tfidf_weight docs = Ok v →
StronglySorted (λ a b : list N, Is_true (str_le a b)) (feature_names v).
Proof.
unfold fit_transform.
pose proof (StronglySorted_merge_sort (λ a b : list N, Is_true (str_le a b))
              (remove_dups (concat (analyze U <$> docs)))) as Hsorted.
destruct (merge_sort _ _) as [| t terms]; [done |]. by intros [= <-].
Qed.
End VectorizerFacts.


(** X9. After a successful fit the feature names are in ascending
    order of [str], each once, [vocabulary_] gives every term its
    position among them, and the matrix has one row for each document
    and one column for each term. *)
Theorem vocabulary_sorted_and_indexed (U : UnicodeData) {float : Type}
    (tfidf_weight : list (list nat) → nat → nat → float)
    (docs : list (list N)) (v : fitted) :
  fit_transform U tfidf_weight docs = Ok v →
  (∀ i j a b, (i < j)%nat → feature_names v !! i = Some a → feature_names v !! j = Some b →
     str_le a b = true ∧ a ≠ b) ∧
  (∀ t j, vocabulary_ v !! t = Some j ↔ feature_names v !! j = Some t) ∧
  n_rows (tfidf_matrix v) = length docs ∧
  n_cols (tfidf_matrix v) = length (feature_names v).
Proof.
  intros Hfit.
  pose proof (fit_transform_Ok U tfidf_weight docs v Hfit) as (Hnd & _ & Hvoc & Hrows & Hcols).
  split; [| done]. intros i j a b Hij Hi Hj. split.
  - apply Is_true_true.
    apply (StronglySorted_sublist_pair (λ a b : list N, Is_true (str_le a b))
             (feature_names v) a b).
    + by eapply feature_names_sorted.
    + by eapply lookup_lt_sublist.
  - intros ->. pose proof (NoDup_lookup _ _ _ _ Hnd Hi Hj). lia.
Qed.

Lemma vocabulary_sorted_and_indexed_witness :
  ∃ v,
    fit_transform latin count_weight (clean_text latin <$> (post_content <$> cats_and_dogs)) = Ok v ∧
    (∀ i j a b, (i < j)%nat → feature_names v !! i = Some a → feature_names v !! j = Some b →
       str_le a b = true ∧ a ≠ b) ∧
    (∀ t j, vocabulary_ v !! t = Some j ↔ feature_names v !! j = Some t) ∧
    n_rows (tfidf_matrix v) = length (clean_text latin <$> (post_content <$> cats_and_dogs)) ∧
    n_cols (tfidf_matrix v) = length (feature_names v).
Proof.
  eexists. split; [vm_compute; reflexivity |].
  apply (vocabulary_sorted_and_indexed latin count_weight
           (clean_text latin <$> (post_content <$> cats_and_dogs))).
  vm_compute. reflexivity.
Defined.


(** ** Letter case *)

Ltac decide_leb :=
  repeat match goal with
    | |- context [N.leb ?a ?b] =>
        first [ replace (N.leb a b) with true by (symmetry; apply N.leb_le; lia)
              | replace (N.leb a b) with false by (symmetry; apply N.leb_gt; lia) ]
    | |- context [N.eqb ?a ?b] =>
        first [ replace (N.eqb a b) with true by (symmetry; apply N.eqb_eq; lia)
              | replace (N.eqb a b) with false by (symmetry; apply N.eqb_neq; lia) ]
    end.

Section CaseFacts.
Context (U : UnicodeData) `{!PythonUnicode U}.

(** Lower-casing an ASCII character keeps it in or out of [\w] and [\s]. *)
Lemma ascii_tolower_class c :
c < 128 →
ascii_tolower c < 128 ∧
(re_word U (ascii_tolower c) || re_space U (ascii_tolower c)) = (re_word U c || re_space U c).
Proof.
intros Hc. unfold ascii_tolower. destruct (ascii_isupper c) eqn:Hup; [| done].
unfold ascii_isupper in Hup. apply andb_true_iff in Hup as [H1%N.leb_le H2%N.leb_le].
split; [lia |]. unfold re_word, re_space.
rewrite !uni_ascii_alnum, !uni_ascii_space by lia.
unfold ascii_isalnum, ascii_isdigit, ascii_isupper, ascii_islower, ascii_isspace.
by decide_leb.
Qed.

Lemma re_sub_ascii_tolower s :
Forall (λ c, c < 128) s →
re_sub_nonword_nonspace U (ascii_tolower <$> s) =
ascii_tolower <$> re_sub_nonword_nonspace U s.
Proof.
unfold re_sub_nonword_nonspace. induction 1 as [| c s Hc _ IH]; [done |].
rewrite fmap_cons, !filter_cons, IH.
destruct (ascii_tolower_class c Hc) as [_ Hclass]. rewrite Hclass.
by destruct (decide (re_word U c || re_space U c)).
Qed.

Lemma lower_from_ascii_tolower before s :
Forall (λ c, c < 128) s → lower_from U before s = ascii_tolower <$> s.
Proof.
intros Hs. revert before. induction Hs as [| c s Hc _ IH]; intros before; [done |].
cbn [lower_from]. rewrite decide_False by (unfold SIGMA; lia).
by rewrite uni_ascii_lower, IH.
Qed.

Lemma str_lower_ascii_tolower s :
Forall (λ c, c < 128) s →
str_lower U (ascii_tolower <$> s) = str_lower U s.
Proof.
intros Hs. unfold str_lower.
assert (Forall (λ c, c < 128) (ascii_tolower <$> s)) as Hs'.
{ apply Forall_fmap. eapply Forall_impl; [exact Hs |]. simpl. intros c Hc.
  by apply ascii_tolower_fixed. }
rewrite (lower_from_ascii_tolower [] _ Hs'), (lower_from_ascii_tolower [] _ Hs).
rewrite <- list_fmap_compose. apply list_fmap_ext. intros _ c _. simpl.
apply ascii_tolower_fixed.
Qed.
End CaseFacts.

(** X10. On ASCII text the cleaning does not see letter case: a text
    and its lower-cased form clean to the same string, so a query
    finds the same words however it is capitalised. *)
Theorem clean_text_ignores_ascii_case (U : UnicodeData) `{!PythonUnicode U} (s : list N) :
  Forall (λ c, c < 128) s →
  clean_text U (ascii_tolower <$> s) = clean_text U s ∧
  normalize U (ascii_tolower <$> s) = normalize U s.
Proof.
  intros Hs.
  assert (clean_text U (ascii_tolower <$> s) = clean_text U s) as Hclean.
  { assert (Forall (λ c, c < 128) (re_sub_nonword_nonspace U s)) as Hsub
      by by apply (Forall_filter_2 (λ c, Is_true (re_word U c || re_space U c))).
    unfold clean_text.
    by rewrite (re_sub_ascii_tolower U s Hs), (str_lower_ascii_tolower U _ Hsub). }
  split; [done |]. unfold normalize. by rewrite Hclean.
Qed.

Lemma clean_text_ignores_ascii_case_witness :
  Forall (λ c, c < 128) (py "Funny CATS, and a Dog!") ∧
  clean_text latin (ascii_tolower <$> py "Funny CATS, and a Dog!")
  = clean_text latin (py "Funny CATS, and a Dog!") ∧
  normalize latin (ascii_tolower <$> py "Funny CATS, and a Dog!")
  = normalize latin (py "Funny CATS, and a Dog!").
Proof.
  assert (Forall (λ c, c < 128) (py "Funny CATS, and a Dog!")) as Hs
    by (apply (bool_decide_unpack _); vm_compute; exact I).
  split; [exact Hs |].
  exact (@clean_text_ignores_ascii_case latin latin_python _ Hs).
Defined.

(** X11. Cleaned text is in lower case whatever the input: [str.lower]
    leaves it as it is, and it holds no upper-case ASCII letter. *)
Theorem cleaned_text_is_lower_case (U : UnicodeData) `{!PythonUnicode U} (s : list N) :
  str_lower U (clean_text U s) = clean_text U s ∧
  Forall (λ c, ascii_isupper c = false) (clean_text U s).
Proof.
  pose proof (clean_text_lower_fixed U s) as Hfixed. split.
  - by apply lower_from_fixed.
  - eapply Forall_impl; [exact Hfixed |]. apply lower_fixed_not_upper; done.
Qed.

Lemma cleaned_text_is_lower_case_witness :
  str_lower latin (clean_text latin [0xC9; 0x54; 0xC9; 0x20; 0x130])
  = clean_text latin [0xC9; 0x54; 0xC9; 0x20; 0x130] ∧
  Forall (λ c, ascii_isupper c = false) (clean_text latin [0xC9; 0x54; 0xC9; 0x20; 0x130]).
Proof. exact (@cleaned_text_is_lower_case latin latin_python _). Defined.


(** ** The index and the scorer on the same posts *)

Section CleanCorpus.
Context (U : UnicodeData) `{!PythonUnicode U} {float : Type}.
Context (tfidf_weight : list (list nat) → nat → nat → float).
Context (np_sum : list float → float).

(** The tokens the vectorizer finds in posts that lower-case cleanly. *)
Lemma analyzed_clean_posts df t :
Forall (λ row, lowercases_cleanly U (post_content row)) df →
(∃ doc, doc ∈ clean_text U <$> (post_content <$> df) ∧ t ∈ analyze U doc) ↔
(2 ≤ length t)%nat ∧ ∃ row, row ∈ df ∧ t ∈ normalize U (post_content row).
Proof.
intros Hdf. rewrite Forall_forall in Hdf. split.
- intros (doc & (s & -> & (row & -> & Hrow)%list_elem_of_fmap)%list_elem_of_fmap & Ht).
  rewrite analyze_clean_text in Ht by auto.
  apply list_elem_of_filter in Ht as [Hlen Ht]. split; [done |]. by exists row.
- intros (Hlen & row & Hrow & Ht). exists (clean_text U (post_content row)). split.
  + by apply list_elem_of_fmap_2, list_elem_of_fmap_2.
  + rewrite analyze_clean_text by auto. by apply list_elem_of_filter.
Qed.

Lemma collect_app {A} (a b : list (result A)) out1 out2 :
collect a = Ok out1 → collect b = Ok out2 → collect (a ++ b) = Ok (out1 ++ out2).
Proof.
revert out1. induction a as [| [x | e] a IH]; intros out1; simpl.
- by intros [= <-].
- destruct (collect a) as [rest | e] eqn:Ha; [| done].
  intros [= <-] Hb. by rewrite (IH rest eq_refl Hb).
- done.
Qed.
End CleanCorpus.

(** X12. On posts that lower-case cleanly, as ASCII posts do, a word
    of the query is found exactly when it has two or more characters
    and is a word of some post; every other word of the query is
    reported as not found. *)
Theorem found_iff_long_word_of_a_post (U : UnicodeData) `{!PythonUnicode U} {float : Type}
    (tfidf_weight : list (list nat) → nat → nat → float)
    (np_sum : list float → float)
    (df : list post) (query : list N) (out : list query_result) :
  Forall (λ row, lowercases_cleanly U (post_content row)) df →
  calculate_tfidf U tfidf_weight np_sum df query = Ok out →
  ∀ i term, normalize U query !! i = Some term →
    ((2 ≤ length term)%nat ∧ (∃ row, row ∈ df ∧ term ∈ normalize U (post_content row)) →
       ∃ x, out !! i = Some (Score term x)) ∧
    (¬ ((2 ≤ length term)%nat ∧ ∃ row, row ∈ df ∧ term ∈ normalize U (post_content row)) →
       out !! i = Some (NotFound term)).
Proof.
  intros Hdf Hout i term Hi.
  destruct (fit_transform U tfidf_weight (clean_text U <$> (post_content <$> df)))
    as [v | e] eqn:Hfit.
  2: { unfold calculate_tfidf in Hout. by rewrite Hfit in Hout. }
  destruct (calculate_tfidf_results U tfidf_weight np_sum df query v Hfit)
    as (out' & Hout' & Hall).
  rewrite Hout in Hout'. injection Hout' as <-.
  destruct (Forall2_lookup_l _ _ _ _ _ Hall Hi) as (r & -> & Hscore).
  pose proof (fit_transform_Ok U tfidf_weight _ v Hfit) as (_ & Helem & _).
  pose proof (analyzed_clean_posts U df term Hdf) as Hclean.
  destruct (score_Ok U tfidf_weight np_sum _ v term Hfit)
    as [(Hin & j & _ & Hfound) | (Hnin & Hnot)].
  - rewrite Hfound in Hscore. injection Hscore as <-. split; [by eexists |].
    intros Habsent. destruct Habsent. by apply Hclean, Helem.
  - rewrite Hnot in Hscore. injection Hscore as <-. split; [| done].
    intros Hpresent. destruct Hnin. by apply Helem, Hclean.
Qed.

Lemma found_iff_long_word_of_a_post_witness :
  Forall (λ row, lowercases_cleanly latin (post_content row)) [b_cats] ∧
  calculate_tfidf latin count_weight nat_sum [b_cats] (py "b cats")
  = Ok [NotFound (py "b"); Score (py "cats") 1%nat] ∧
  ∀ i term, normalize latin (py "b cats") !! i = Some term →
    ((2 ≤ length term)%nat ∧
     (∃ row, row ∈ [b_cats] ∧ term ∈ normalize latin (post_content row)) →
       ∃ x, [NotFound (py "b"); Score (py "cats") 1%nat] !! i = Some (Score term x)) ∧
    (¬ ((2 ≤ length term)%nat ∧
        ∃ row, row ∈ [b_cats] ∧ term ∈ normalize latin (post_content row)) →
       [NotFound (py "b"); Score (py "cats") 1%nat] !! i = Some (NotFound term)).
Proof.
  assert (Forall (λ row, lowercases_cleanly latin (post_content row)) [b_cats]) as Hdf
    by (apply Forall_singleton, (ascii_lowercases_cleanly latin), (bool_decide_unpack _);
        vm_compute; exact I).
  assert (calculate_tfidf latin count_weight nat_sum [b_cats] (py "b cats")
          = Ok [NotFound (py "b"); Score (py "cats") 1%nat]) as Hout
    by (vm_compute; reflexivity).
  split; [exact Hdf |]. split; [exact Hout |].
  exact (@found_iff_long_word_of_a_post latin latin_python nat count_weight nat_sum
           [b_cats] (py "b cats") _ Hdf Hout).
Defined.

(** X13. The two artifacts agree: on posts that lower-case cleanly,
    every word of the index sheet that has two or more characters is
    a column of the matrix built from the same posts. *)
Theorem indexed_words_are_columns (U : UnicodeData) `{!PythonUnicode U} {float : Type}
    (tfidf_weight : list (list nat) → nat → nat → float)
    (k : nat) (df : list post) (v : fitted) (r : word_post) :
  Forall (λ row, lowercases_cleanly U (post_content row)) df →
  fit_transform U tfidf_weight (clean_text U <$> (post_content <$> df)) = Ok v →
  r ∈ word_post_data U k df →
  (2 ≤ length (word r))%nat →
  ∃ j, feature_names v !! j = Some (word r) ∧ vocabulary_ v !! word r = Some j.
Proof.
  intros Hdf Hfit Hr Hlen.
  pose proof (fit_transform_Ok U tfidf_weight _ v Hfit) as (_ & Helem & Hvoc & _).
  unfold word_post_data in Hr.
  apply list_elem_of_fmap in Hr as ([w post_ids] & -> & Hin). simpl in *.
  apply common_postings_elem in Hin as (n & post_list & _ & Hl & ->).
  assert (∃ row, row ∈ df ∧ w ∈ normalize U (post_content row)) as Hrow.
  { rewrite index_posts_exact, lookup_empty in Hl.
    destruct (occurrence_ids U 0 df w) as [| d ids] eqn:Hids; [done |].
    injection Hl as <-.
    pose proof (index_posts_exact U 0 df ∅ w) as Hl'.
    rewrite lookup_empty, Hids in Hl'.
    destruct (proj1 (inverted_index_lookup U df w _ Hl' d) (list_elem_of_here _ _))
      as (i & row & Hi & _ & Hw).
    exists row. split; [by eapply list_elem_of_lookup_2 | done]. }
  assert (w ∈ feature_names v) as [j Hj]%list_elem_of_lookup
    by by apply Helem, (analyzed_clean_posts U df w Hdf).
  exists j. split; [done | by apply Hvoc].
Qed.

Lemma indexed_words_are_columns_witness :
  ∃ v,
    Forall (λ row, lowercases_cleanly latin (post_content row)) cats_and_dogs ∧
    fit_transform latin count_weight (clean_text latin <$> (post_content <$> cats_and_dogs))
    = Ok v ∧
    {| word := py "cats"; posts := py "1,3" |} ∈ word_post_data latin 15 cats_and_dogs ∧
    (2 ≤ length (py "cats"))%nat ∧
    ∃ j, feature_names v !! j = Some (py "cats") ∧ vocabulary_ v !! py "cats" = Some j.
Proof.
  assert (Forall (λ row, lowercases_cleanly latin (post_content row)) cats_and_dogs) as Hdf.
  { apply Forall_forall. intros row Hrow.
    apply (ascii_lowercases_cleanly latin). revert row Hrow. apply Forall_forall.
    apply (bool_decide_unpack _). vm_compute. exact I. }
  assert ({| word := py "cats"; posts := py "1,3" |} ∈ word_post_data latin 15 cats_and_dogs)
    as Hr by (vm_compute; apply list_elem_of_further, list_elem_of_here).
  assert ((2 ≤ length (py "cats"))%nat) as Hlen by (vm_compute; lia).
  eexists. split; [exact Hdf |]. split; [vm_compute; reflexivity |].
  split; [exact Hr |]. split; [exact Hlen |].
  apply (@indexed_words_are_columns latin latin_python nat count_weight 15 cats_and_dogs
           _ {| word := py "cats"; posts := py "1,3" |} Hdf);
    [vm_compute; reflexivity | exact Hr | exact Hlen].
Defined.

(** X14. A query of two parts joined by a space is scored part by
    part: its results are the results of the first part followed by
    those of the second. *)
Theorem query_scored_part_by_part (U : UnicodeData) `{!PythonUnicode U} {float : Type}
    (tfidf_weight : list (list nat) → nat → nat → float)
    (np_sum : list float → float)
    (df : list post) (q1 q2 : list N) (out1 out2 : list query_result) :
  space_uncased U →
  calculate_tfidf U tfidf_weight np_sum df q1 = Ok out1 →
  calculate_tfidf U tfidf_weight np_sum df q2 = Ok out2 →
  calculate_tfidf U tfidf_weight np_sum df (q1 ++ py " " ++ q2) = Ok (out1 ++ out2).
Proof.
  intros Hsp. unfold calculate_tfidf.
  destruct (fit_transform U tfidf_weight (clean_text U <$> (post_content <$> df)))
    as [v | e]; [| done].
  fold (normalize U q1) (normalize U q2) (normalize U (q1 ++ py " " ++ q2)).
  rewrite !normalize_words by done.
  change (q1 ++ py " " ++ q2) with (q1 ++ 32 :: q2).
  rewrite (words_of_app_space U Hsp q1 q2), fmap_app.
  apply collect_app.
Qed.

Lemma query_scored_part_by_part_witness :
  space_uncased latin ∧
  calculate_tfidf latin count_weight nat_sum cats_and_dogs (py "Funny") = Ok [Score (py "funny") 2%nat] ∧
  calculate_tfidf latin count_weight nat_sum cats_and_dogs (py "birds") = Ok [NotFound (py "birds")] ∧
  calculate_tfidf latin count_weight nat_sum cats_and_dogs (py "Funny" ++ py " " ++ py "birds")
  = Ok ([Score (py "funny") 2%nat] ++ [NotFound (py "birds")]).
Proof.
  assert (calculate_tfidf latin count_weight nat_sum cats_and_dogs (py "Funny")
          = Ok [Score (py "funny") 2%nat]) as H1 by (vm_compute; reflexivity).
  assert (calculate_tfidf latin count_weight nat_sum cats_and_dogs (py "birds")
          = Ok [NotFound (py "birds")]) as H2 by (vm_compute; reflexivity).
  split; [exact latin_space_uncased |]. split; [exact H1 |]. split; [exact H2 |].
  exact (@query_scored_part_by_part latin latin_python nat count_weight nat_sum
           cats_and_dogs _ _ _ _ latin_space_uncased H1 H2).
Defined.

(** ** Posts added at the end *)

Lemma occurrence_ids_app U i df1 df2 w :
  occurrence_ids U i (df1 ++ df2) w =
  occurrence_ids U i df1 w ++ occurrence_ids U (i + length df1) df2 w.
Proof.
  revert i. induction df1 as [| row df1 IH]; intros i; simpl.
  - by rewrite Nat.add_0_r.
  - rewrite IH, <- app_assoc. do 3 f_equal. lia.
Qed.

Lemma occurrence_ids_from U i df w : Forall (λ d, (i < d)%nat) (occurrence_ids U i df w).
Proof.
  revert i. induction df as [| row df IH]; intros i; simpl; [constructor |].
  apply Forall_app. split.
  - apply Forall_forall. intros d ->%elem_of_replicate_inv. lia.
  - eapply Forall_impl; [apply IH |]. simpl. lia.
Qed.

(** X15. Posts added at the end leave what is indexed alone: indexing
    [df1 ++ df2] is indexing [df2] on top of the index of [df1], and
    every entry of the index of [df1] is the beginning of the entry
    the word has afterwards, the ids that follow being those of the
    new posts. *)
Theorem index_grows_at_the_end (U : UnicodeData) (df1 df2 : list post) (w : list N)
    (post_list : list nat) :
  index_posts U 0 df1 ∅ !! w = Some post_list →
  ∃ added,
    index_posts U 0 (df1 ++ df2) ∅ !! w = Some (post_list ++ added) ∧
    index_posts U (length df1) df2 (index_posts U 0 df1 ∅) !! w = Some (post_list ++ added) ∧
    Forall (λ d, (length df1 < d)%nat) added.
Proof.
  rewrite !index_posts_exact, lookup_empty, occurrence_ids_app. simpl.
  intros Hl. exists (occurrence_ids U (length df1) df2 w).
  destruct (occurrence_ids U 0 df1 w) as [| d ids] eqn:Hids; [done |].
  injection Hl as <-. split; [done |]. split; [| apply occurrence_ids_from].
  rewrite appended_appended. done.
Qed.

Lemma index_grows_at_the_end_witness :
  index_posts latin 0 cats_and_dogs ∅ !! py "cats" = Some [1; 3]%nat ∧
  ∃ added,
    index_posts latin 0 (cats_and_dogs ++ [b_cats]) ∅ !! py "cats" = Some ([1; 3]%nat ++ added) ∧
    index_posts latin (length cats_and_dogs) [b_cats] (index_posts latin 0 cats_and_dogs ∅)
      !! py "cats" = Some ([1; 3]%nat ++ added) ∧
    Forall (λ d, (length cats_and_dogs < d)%nat) added.
Proof.
  assert (index_posts latin 0 cats_and_dogs ∅ !! py "cats" = Some [1; 3]%nat) as Hl
    by (vm_compute; reflexivity).
  split; [exact Hl |].
  exact (index_grows_at_the_end latin cats_and_dogs [b_cats] (py "cats") _ Hl).
Defined.
